(** * create_intersect_matrix.py: the intersection matrix of merged MACS2 peaks

    A shallow embedding of [macs2_merged_expand] and a verification of the
    properties its specification states.

    Python values are modelled as follows.
    - [str] is a list of code points below 256 ([ascii]); comparison is by
      code point, as in Python.
    - [int] is [Z]; [float] is abstract (the class [PyNum]): the script only
      parses floats and prints them back with [str()].
    - [dict] is a [gmap]: no result of the script depends on the iteration
      order of a dictionary (every key list is sorted, every value list is
      only tested for membership).
    - [set] is a [gset]; its iteration order is a parameter ([SetOrder]).
    - an exception is a value of [exn] carried by the [result] monad.
    - a file is the list of its lines (input) or of the strings written to
      it (output). The parsing of the command line, the creation of the
      output directory and the names of the files are left out. *)

From Stdlib Require Import ZArith Ascii String DecimalString.
From stdpp Require Import base option list sorting gmap strings.

Local Open Scope Z_scope.
Local Open Scope list_scope.

#[local] Set Warnings "-clear-no-such-hyp".

(** ** Strings *)

Abbreviation str := (list ascii).

(** A string literal of the script. *)
Definition lit (s : string) : str := list_ascii_of_string s.

(** ["\t"] and ["\n"]. *)
Definition tab : ascii := "009"%char.
Definition newline : ascii := "010"%char.

(** Code points below 256 for which [str.isspace()] holds. *)
Definition is_space (c : ascii) : bool :=
  let n := nat_of_ascii c in
  ((9 <=? n) && (n <=? 13))%nat || ((28 <=? n) && (n <=? 32))%nat
  || (n =? 133)%nat || (n =? 160)%nat.

(** [s.lstrip()], [s.rstrip()] and [s.strip()]. *)
Fixpoint py_lstrip (s : str) : str :=
  match s with
  | c :: s' => if is_space c then py_lstrip s' else s
  | [] => []
  end.

Definition py_rstrip (s : str) : str := rev (py_lstrip (rev s)).

Definition py_strip (s : str) : str := py_rstrip (py_lstrip s).

(** [s.startswith(p)]. *)
Fixpoint starts_with (p s : str) : bool :=
  match p, s with
  | [], _ => true
  | a :: p', b :: s' => if Ascii.eqb a b then starts_with p' s' else false
  | _ :: _, [] => false
  end.

(** [s.split(sep)] for a non-empty [sep]: the text is scanned from the
    left; [cur] is the piece being read and [skip] counts the characters of
    a separator that was matched and is still to be passed over. *)
Fixpoint split_from (sep : str) (skip : nat) (cur s : str) : list str :=
  match s with
  | [] => [cur]
  | c :: s' =>
      match skip with
      | S k => split_from sep k cur s'
      | O =>
          if starts_with sep s
          then cur :: split_from sep (length sep - 1) [] s'
          else split_from sep 0 (cur ++ [c]) s'
      end
  end.

Definition py_split (sep s : str) : list str := split_from sep 0 [] s.

(** [sep.join(l)]. *)
Fixpoint py_join (sep : str) (l : list str) : str :=
  match l with
  | [] => []
  | [x] => x
  | x :: l' => x ++ sep ++ py_join sep l'
  end.

(** [str(n)] for an [int]. *)
Definition str_int (n : Z) : str :=
  list_ascii_of_string (NilZero.string_of_int (Z.to_int n)).

(** [l[:-1]]. *)
Definition drop_last {A} (l : list A) : list A := removelast l.

(** ** Ordering and sorting

    Python compares [int] by value and [str], [tuple] and [list]
    lexicographically; [PyOrd] is that rich-comparison interface. *)

Class PyOrd (A : Type) := py_cmp : A → A → comparison.

Global Instance ascii_ord : PyOrd ascii := Ascii.compare.
Global Instance Z_ord : PyOrd Z := Z.compare.

Fixpoint list_cmp {A} `{PyOrd A} (l k : list A) : comparison :=
  match l, k with
  | [], [] => Eq
  | [], _ :: _ => Lt
  | _ :: _, [] => Gt
  | a :: l', b :: k' =>
      match py_cmp a b with
      | Eq => list_cmp l' k'
      | c => c
      end
  end.

Global Instance list_ord {A} `{PyOrd A} : PyOrd (list A) := list_cmp.

Global Instance pair_ord {A B} `{PyOrd A, PyOrd B} : PyOrd (A * B) :=
  λ p q, match py_cmp p.1 q.1 with
         | Eq => py_cmp p.2 q.2
         | c => c
         end.

(** [a < b], and the order [not (b < a)] in which a sort leaves [a] before [b]. *)
Definition py_lt {A} `{PyOrd A} (a b : A) : Prop := py_cmp a b = Lt.
Definition py_le {A} `{PyOrd A} (a b : A) : Prop := py_cmp b a ≠ Lt.

Global Instance py_le_dec {A} `{PyOrd A} (a b : A) : Decision (py_le a b) :=
  decide (py_cmp b a ≠ Lt).

(** [sorted(l)] and [sorted(l, reverse=True)]: a stable merge sort; with
    [reverse=True] the list is reversed, sorted and reversed again. *)
Definition py_sorted {A} `{PyOrd A} (l : list A) : list A := merge_sort py_le l.
Definition py_sorted_reverse {A} `{PyOrd A} (l : list A) : list A :=
  reverse (py_sorted (reverse l)).

(** ** Exceptions *)

Inductive exn := IndexError | ValueError | KeyError.

Inductive result (A : Type) :=
  | Ok (a : A)
  | Raise (e : exn).
Arguments Ok {A} a.
Arguments Raise {A} e.

Global Instance result_ret : MRet result := @Ok.
Global Instance result_bind : MBind result := λ A B f m,
  match m with
  | Ok a => f a
  | Raise e => Raise e
  end.
Global Instance result_fmap : FMap result := λ A B f m,
  match m with
  | Ok a => Ok (f a)
  | Raise e => Raise e
  end.

(** [l[i]] for [0 <= i]. *)
Definition index {A} (l : list A) (i : nat) : result A :=
  match l !! i with
  | Some x => Ok x
  | None => Raise IndexError
  end.

(** [d[k]]. *)
Definition getitem {K V} `{Countable K} (d : gmap K V) (k : K) : result V :=
  match d !! k with
  | Some v => Ok v
  | None => Raise KeyError
  end.

(** A loop [for x in l: a = f(a, x)] whose body may raise. *)
Fixpoint for_each {A B} (f : A → B → result A) (a : A) (l : list B) : result A :=
  match l with
  | [] => Ok a
  | x :: l' => a' ← f a x; for_each f a' l'
  end.

(** ** Numbers and sets of the interpreter

    [int(x)] and [float(x)] raise [ValueError] on text that is no number
    ([None] here); a float is only ever printed back with [str()]. *)
Class PyNum := {
  pyfloat : Type;
  py_int : str → option Z;
  py_float : str → option pyfloat;
  str_float : pyfloat → str
}.

Definition int_of `{PyNum} (x : str) : result Z :=
  match py_int x with
  | Some n => Ok n
  | None => Raise ValueError
  end.

Definition float_of `{PyNum} (x : str) : result pyfloat :=
  match py_float x with
  | Some v => Ok v
  | None => Raise ValueError
  end.

(** The order in which a [set] of strings is iterated: it depends on the
    hash seed of the process, so it is any enumeration of the elements. *)
Record SetOrder := {
  set_iter : gset str → list str;
  set_iter_perm : ∀ s, set_iter s ≡ₚ elements s
}.

Definition elements_order : SetOrder :=
  {| set_iter := elements; set_iter_perm := λ s, reflexivity (elements s) |}.

(** ** The script *)

Section Script.
Context `{PyNum} (ord : SetOrder).

(** [name.split(".")[0].split("_peak_")[0]]; a split is never empty. *)
Definition sample_id (name : str) : str :=
  hd [] (py_split (lit "_peak_") (hd [] (py_split (lit ".") name))).

(** ["_".join(sid.split("_")[:-1])]. *)
Definition group_id (sid : str) : str :=
  py_join (lit "_") (drop_last (py_split (lit "_") sid)).

(** [line.strip().split("\t")]. *)
Definition line_fields (line : str) : list str :=
  py_split [tab] (py_strip line).

(** *** Collecting the sample names (lines 91-99) *)

Definition line_names (line : str) : result (list str) :=
  names_field ← index (line_fields line) 5;
  mret (py_split (lit ",") names_field).

Definition collect_step (all_sample_names : gset str) (line : str)
  : result (gset str) :=
  names ← line_names line;
  mret (all_sample_names ∪ list_to_set (sample_id <$> names)).

Definition collect_sample_names (lines : list str) : result (gset str) :=
  for_each collect_step ∅ lines.

Definition sorted_sample_names (all_sample_names : gset str) : list str :=
  py_sorted (set_iter ord all_sample_names).

(** *** The header (lines 104-113) *)

Definition suffixed (sfx : string) (sample_name_list : list str) : list str :=
  (λ x, x ++ lit sfx) <$> sample_name_list.

Definition ofields (sample_name_list : list str) : list str :=
  [lit "chr"; lit "start"; lit "end"; lit "interval_id"; lit "num_peaks";
   lit "num_samples"]
  ++ suffixed ".bool" sample_name_list
  ++ suffixed ".fc" sample_name_list
  ++ suffixed ".qval" sample_name_list
  ++ suffixed ".pval" sample_name_list
  ++ suffixed ".start" sample_name_list
  ++ suffixed ".end" sample_name_list.

(** A line handed to [fout.write]. *)
Definition out_line (fields : list str) : str :=
  py_join [tab] fields ++ [newline].

(** *** Reading a row (lines 117-127) *)

Record row := {
  chrom_id : str;
  mstart : Z;
  mend : Z;
  starts : list Z;
  ends : list Z;
  names : list str;
  fcs : list pyfloat;
  pvals : list pyfloat;
  qvals : list pyfloat
}.

Definition parse_row (line : str) : result row :=
  let lspl := line_fields line in
  chrom_id ← index lspl 0;
  mstart ← index lspl 1 ≫= int_of;
  mend ← index lspl 2 ≫= int_of;
  starts ← index lspl 3 ≫= λ f, mapM int_of (py_split (lit ",") f);
  ends ← index lspl 4 ≫= λ f, mapM int_of (py_split (lit ",") f);
  names ← (py_split (lit ",")) <$> index lspl 5;
  fcs ← index lspl 8 ≫= λ f, mapM float_of (py_split (lit ",") f);
  pvals ← index lspl 9 ≫= λ f, mapM float_of (py_split (lit ",") f);
  qvals ← index lspl 10 ≫= λ f, mapM float_of (py_split (lit ",") f);
  mret {| chrom_id := chrom_id; mstart := mstart; mend := mend;
          starts := starts; ends := ends; names := names;
          fcs := fcs; pvals := pvals; qvals := qvals |}.

(** *** Grouping the samples of a row (lines 130-142) *)

Definition group_step (group_dict : gmap str (list str)) (sid : str)
  : gmap str (list str) :=
  let gid := group_id sid in
  let group_dict :=
    if decide (gid ∈ dom group_dict) then group_dict
    else <[gid := []]> group_dict in
  let sids := default [] (group_dict !! gid) in
  if decide (sid ∈ sids) then group_dict
  else <[gid := sids ++ [sid]]> group_dict.

Definition build_group_dict (names : list str) : gmap str (list str) :=
  foldl group_step ∅ (sample_id <$> names).

Definition pass_step (min_replicates : Z) (pass_rep_thresh_list : list str)
    (item : str * list str) : list str :=
  if decide (min_replicates ≤ Z.of_nat (length item.2))
  then pass_rep_thresh_list ++ item.2
  else pass_rep_thresh_list.

Definition pass_rep_thresh (min_replicates : Z)
    (group_dict : gmap str (list str)) : list str :=
  foldl (pass_step min_replicates) [] (map_to_list group_dict).

(** *** The values of the samples that pass (lines 145-167) *)

Record values := {
  fc_dict : gmap str (list str);
  qval_dict : gmap str (list str);
  pval_dict : gmap str (list str);
  start_dict : gmap str (list str);
  end_dict : gmap str (list str)
}.

Definition no_values : values :=
  {| fc_dict := ∅; qval_dict := ∅; pval_dict := ∅; start_dict := ∅;
     end_dict := ∅ |}.

(** [if k not in d: d[k] = []] followed by [d[k].append(v)]. *)
Definition dict_append (d : gmap str (list str)) (k v : str)
  : gmap str (list str) :=
  let d := if decide (k ∈ dom d) then d else <[k := []]> d in
  <[k := default [] (d !! k) ++ [v]]> d.

Definition values_step (r : row) (pass_rep_thresh_list : list str)
    (v : values) (idx : nat) : result values :=
  sample ← sample_id <$> index (names r) idx;
  if decide (sample ∈ pass_rep_thresh_list) then
    fc ← index (fcs r) idx;
    let fc_dict := dict_append (fc_dict v) sample (str_float fc) in
    qval ← index (qvals r) idx;
    let qval_dict := dict_append (qval_dict v) sample (str_float qval) in
    pval ← index (pvals r) idx;
    let pval_dict := dict_append (pval_dict v) sample (str_float pval) in
    start ← index (starts r) idx;
    let start_dict := dict_append (start_dict v) sample (str_int start) in
    end_ ← index (ends r) idx;
    let end_dict := dict_append (end_dict v) sample (str_int end_) in
    mret {| fc_dict := fc_dict; qval_dict := qval_dict;
            pval_dict := pval_dict; start_dict := start_dict;
            end_dict := end_dict |}
  else mret v.

Definition collect_values (r : row) (pass_rep_thresh_list : list str)
  : result values :=
  for_each (values_step r pass_rep_thresh_list) no_values
    (seq 0 (length (names r))).

(** *** The output line of a row (lines 170-181) *)

(** [d.keys()]. *)
Definition keys {K V} `{Countable K} (d : gmap K V) : list K :=
  (map_to_list d).*1.

Definition bool_cell (samples : list str) (x : str) : str :=
  if decide (x ∈ samples) then lit "TRUE" else lit "FALSE".

Definition value_cell (d : gmap str (list str)) (samples : list str) (x : str)
  : result str :=
  if decide (x ∈ samples) then py_join (lit ";") <$> getitem d x
  else mret (lit "NA").

(** The fields of the line and the key of the combination, or [None] when
    no sample contributes. *)
Definition row_output (sample_name_list : list str) (total_out_intervals : Z)
    (r : row) (v : values) : result (option (list str * list str)) :=
  let samples := py_sorted (keys (fc_dict v)) in
  if decide (samples = []) then mret None else
  let num_samples := length samples in
  let bool_list := bool_cell samples <$> sample_name_list in
  fc_list ← mapM (value_cell (fc_dict v) samples) sample_name_list;
  qval_list ← mapM (value_cell (qval_dict v) samples) sample_name_list;
  pval_list ← mapM (value_cell (pval_dict v) samples) sample_name_list;
  start_list ← mapM (value_cell (start_dict v) samples) sample_name_list;
  end_list ← mapM (value_cell (end_dict v) samples) sample_name_list;
  let olist :=
    [chrom_id r; str_int (mstart r); str_int (mend r);
     lit "Interval_" ++ str_int (total_out_intervals + 1);
     str_int (Z.of_nat (length (names r)));
     str_int (Z.of_nat num_samples)]
    ++ bool_list ++ fc_list ++ qval_list ++ pval_list ++ start_list
    ++ end_list in
  mret (Some (olist, py_sorted samples)).

(** *** The loop over the rows (lines 116-187) *)

Record state := {
  written : list str;
  comb_freq_dict : gmap (list str) Z;
  total_out_intervals : Z
}.

Definition count_combination (comb_freq_dict : gmap (list str) Z)
    (tsamples : list str) : gmap (list str) Z :=
  let comb_freq_dict :=
    if decide (tsamples ∈ dom comb_freq_dict) then comb_freq_dict
    else <[tsamples := 0]> comb_freq_dict in
  <[tsamples := default 0 (comb_freq_dict !! tsamples) + 1]> comb_freq_dict.

(** What the body of the loop computes for a line before it writes. *)
Definition line_output (sample_name_list : list str) (min_replicates : Z)
    (total_out_intervals : Z) (line : str)
  : result (option (list str * list str)) :=
  r ← parse_row line;
  let group_dict := build_group_dict (names r) in
  let pass_rep_thresh_list := pass_rep_thresh min_replicates group_dict in
  v ← collect_values r pass_rep_thresh_list;
  row_output sample_name_list total_out_intervals r v.

Definition expand_line (sample_name_list : list str) (min_replicates : Z)
    (st : state) (line : str) : result state :=
  out ← line_output sample_name_list min_replicates (total_out_intervals st) line;
  match out with
  | None => mret st
  | Some (olist, tsamples) =>
      mret {| written := written st ++ [out_line olist];
              comb_freq_dict := count_combination (comb_freq_dict st) tsamples;
              total_out_intervals := total_out_intervals st + 1 |}
  end.

(** The loop stops at the first exception; the lines written so far stay
    in the file. *)
Fixpoint expand_lines (sample_name_list : list str) (min_replicates : Z)
    (st : state) (lines : list str) : state * option exn :=
  match lines with
  | [] => (st, None)
  | line :: rest =>
      match expand_line sample_name_list min_replicates st line with
      | Ok st' => expand_lines sample_name_list min_replicates st' rest
      | Raise e => (st, Some e)
      end
  end.

(** *** The table of combinations (lines 191-194) *)

(** [sorted([(d[x], x) for x in d.keys()], reverse=True)]. *)
Definition comb_freq_items (comb_freq_dict : gmap (list str) Z)
  : list (Z * list str) :=
  py_sorted_reverse ((λ kv, (kv.2, kv.1)) <$> map_to_list comb_freq_dict).

Definition intersect_line (item : Z * list str) : str :=
  py_join (lit "&") item.2 ++ [tab] ++ str_int item.1 ++ [newline].

(** *** The whole run

    [lines] is the content of MERGED_INTERVAL_FILE as the two [for line in
    fin] loops read it. The result is what was written to OUTFILE and to the
    [.intersect.txt] file ([None]: the file was never opened) and the
    exception that ended the run, if any. *)

Record files := {
  primary : option (list str);
  secondary : option (list str);
  raised : option exn
}.

Definition initial_state (sample_name_list : list str) : state :=
  {| written := [out_line (ofields sample_name_list)];
     comb_freq_dict := ∅;
     total_out_intervals := 0 |}.

Definition macs2_merged_expand (lines : list str) (min_replicates : Z) : files :=
  match collect_sample_names lines with
  | Raise e => {| primary := None; secondary := None; raised := Some e |}
  | Ok all_sample_names =>
      let sample_name_list := sorted_sample_names all_sample_names in
      match expand_lines sample_name_list min_replicates
              (initial_state sample_name_list) lines with
      | (st, Some e) =>
          {| primary := Some (written st); secondary := None;
             raised := Some e |}
      | (st, None) =>
          {| primary := Some (written st);
             secondary :=
               Some (intersect_line <$> comb_freq_items (comb_freq_dict st));
             raised := None |}
      end
  end.

End Script.

(** *** The name of the secondary file (line 191)

    [f"{outfile[:-4]}.intersect.txt"]: a slice [s[:-4]] of a string shorter
    than 4 characters is empty. *)
Definition intersect_path (outfile : str) : str :=
  take (length outfile - 4) outfile ++ lit ".intersect.txt".

(** * The vocabulary of the specification *)

(** ** The order of Python values *)

Class PyOrdLaws (A : Type) `{PyOrd A} := {
  cmp_eq : ∀ a b : A, py_cmp a b = Eq ↔ a = b;
  cmp_antisym : ∀ a b : A, py_cmp b a = CompOpp (py_cmp a b);
  cmp_trans : ∀ a b c : A, py_cmp a b = Lt → py_cmp b c = Lt → py_cmp a c = Lt
}.

(** [l] comes before [k] in the lexicographic order: [l] is a proper
    prefix of [k], or the two differ first at elements [a < b]. *)
Definition lexicographically_less {A} `{PyOrd A} (l k : list A) : Prop :=
  (∃ x t, k = l ++ x :: t)
  ∨ (∃ p a b l' k', l = p ++ a :: l' ∧ k = p ++ b :: k' ∧ py_lt a b).

(** ** Sample names and replicate groups *)

(** The part of [s] before the first occurrence of [sep], and [s] itself
    when [sep] does not occur: the words of the specification for the two
    steps of the derivation of a sample name. *)
Fixpoint before_first (sep s : str) : str :=
  match s with
  | [] => []
  | c :: s' => if starts_with sep s then [] else c :: before_first sep s'
  end.

(** [p] is the part of [s] before the first occurrence of [sep], or [s]
    itself when [sep] does not occur in [s]. *)
Definition part_before (sep s p : str) : Prop :=
  (p = s ∧ ∀ q r, s ≠ q ++ sep ++ r) ∨
  (∃ r, s = p ++ sep ++ r ∧
        ∀ q r', s = q ++ sep ++ r' → (length p ≤ length q)%nat).

(** The name kept for a source: the text before the first ["."], cut
    before its first ["_peak_"]. *)
Definition derived_from (name s : str) : Prop :=
  ∃ t, part_before (lit ".") name t ∧ part_before (lit "_peak_") t s.

(** The names of the sources of a line. *)
Definition source_of (line name : str) : Prop :=
  ∃ field, line_fields line !! 5%nat = Some field ∧
           name ∈ py_split (lit ",") field.

(** The distinct sample names of the row that fall in the group [gid]. *)
Definition group_members (names : list str) (gid : str) : list str :=
  remove_dups (filter (λ sid, group_id sid = gid) (sample_id <$> names)).

(** What [group_dict] holds once the sample names [sids] have been seen. *)
Definition groups_of (sids : list str) (group_dict : gmap str (list str)) : Prop :=
  (∀ sid, sid ∈ sids → is_Some (group_dict !! group_id sid)) ∧
  (∀ gid members, group_dict !! gid = Some members →
     NoDup members ∧ ∀ sid, sid ∈ members ↔ sid ∈ sids ∧ group_id sid = gid).

(** The group [gid] has at least [mr] distinct sample names in the row. *)
Definition group_passes (mr : Z) (names : list str) (gid : str) : Prop :=
  mr ≤ Z.of_nat (length (group_members names gid)).

Global Instance group_passes_dec (mr : Z) (names : list str) (gid : str) :
  Decision (group_passes mr names gid) :=
  decide (mr ≤ Z.of_nat (length (group_members names gid))).

(** ** The values of a row *)

(** An entry of a dictionary of lists: absent when nothing was appended. *)
Definition entry (l : list str) : option (list str) :=
  match l with
  | [] => None
  | _ => Some l
  end.

(** The values of the column [col] at the sources that belong to the
    sample [s], in the order of the sources. *)
Definition values_of (names col : list str) (s : str) : list str :=
  (filter (λ p, sample_id p.1 = s) (zip names col)).*2.

(** What a dictionary holds for the sample [s]: the values of its sources
    when its group passes, and nothing otherwise. *)
Definition accumulated (mr : Z) (names col : list str) (s : str)
  : option (list str) :=
  if decide (group_passes mr names (group_id s))
  then entry (values_of names col s) else None.

(** The number of [TRUE] cells. *)
Definition count_true (cells : list str) : nat :=
  length (filter (λ c, c = lit "TRUE") cells).

(** The sum of the counts of the table of combinations. *)
Definition sum_counts (d : gmap (list str) Z) : Z :=
  foldr Z.add 0 (map_to_list d).*2.

Section Vocabulary.
Context {N : PyNum}.

(** The samples that pass the threshold in the row [r]. *)
Definition passing (min_replicates : Z) (r : row) : list str :=
  pass_rep_thresh min_replicates (build_group_dict (names r)).

(** The sample of the source [idx] is among [pass]. *)
Definition eligible (r : row) (pass : list str) (idx : nat) : Prop :=
  ∃ name, names r !! idx = Some name ∧ sample_id name ∈ pass.

(** The source [idx] has a value in each of the five sequences. *)
Definition complete (r : row) (idx : nat) : Prop :=
  (idx < length (fcs r) ∧ idx < length (qvals r) ∧ idx < length (pvals r)
   ∧ idx < length (starts r) ∧ idx < length (ends r))%nat.

(** Some source that passes has no value in one of the five sequences. *)
Definition lacks_value (mr : Z) (r : row) : Prop :=
  ∃ idx, eligible r (passing mr r) idx ∧ ¬ complete r idx.

(** The value of the column [col] at the source [idx], when that source
    belongs to the sample [s] and passes. *)
Definition pick (r : row) (pass col : list str) (s : str) (idx : nat)
  : option str :=
  name ← names r !! idx;
  x ← col !! idx;
  if decide (sample_id name = s ∧ s ∈ pass) then Some x else None.

(** The values of the column [col] for the sample [s] among the first [k]
    sources, in the order of the sources. *)
Definition taken (r : row) (pass col : list str) (s : str) (k : nat)
  : list str :=
  omap (pick r pass col s) (seq 0 k).

(** The five dictionaries hold, for each sample, the values of its
    sources that pass. *)
Definition columns_filled (r : row) (pass : list str) (v : values) : Prop :=
  ∀ s,
    fc_dict v !! s = entry (taken r pass (str_float <$> fcs r) s (length (names r)))
    ∧ qval_dict v !! s = entry (taken r pass (str_float <$> qvals r) s (length (names r)))
    ∧ pval_dict v !! s = entry (taken r pass (str_float <$> pvals r) s (length (names r)))
    ∧ start_dict v !! s = entry (taken r pass (str_int <$> starts r) s (length (names r)))
    ∧ end_dict v !! s = entry (taken r pass (str_int <$> ends r) s (length (names r))).

(** The sample [s] has a source in the row and passes the threshold. *)
Definition contributes (r : row) (pass : list str) (s : str) : Prop :=
  s ∈ pass ∧ s ∈ sample_id <$> names r.

(** The samples of a row that have a source that passes, one per source. *)
Definition contributing_samples (mr : Z) (r : row) : list str :=
  filter (λ s, s ∈ passing mr r) (sample_id <$> names r).

(** The line is a row with a contributing sample. *)
Definition row_contributes (mr : Z) (line : str) : Prop :=
  match parse_row line with
  | Ok r => contributing_samples mr r ≠ []
  | Raise _ => False
  end.

Global Instance row_contributes_dec (mr : Z) (line : str) :
  Decision (row_contributes mr line) :=
  match parse_row line as m
    return Decision (match m with
                     | Ok r => contributing_samples mr r ≠ []
                     | Raise _ => False
                     end)
  with
  | Ok r => decide (contributing_samples mr r ≠ [])
  | Raise _ => decide False
  end.

(** ** The lines of the output *)

(** The fields of an output line. *)
Definition fields_of (sample_name_list : list str) (total_out_intervals : Z)
    (r : row) (samples : list str)
    (fc_list qval_list pval_list start_list end_list : list str) : list str :=
  [chrom_id r; str_int (mstart r); str_int (mend r);
   lit "Interval_" ++ str_int (total_out_intervals + 1);
   str_int (Z.of_nat (length (names r)));
   str_int (Z.of_nat (length samples))]
  ++ (bool_cell samples <$> sample_name_list) ++ fc_list ++ qval_list
  ++ pval_list ++ start_list ++ end_list.

(** [x] is a number as [str()] prints it. *)
Definition printed (x : str) : Prop :=
  (∃ f : pyfloat, x = str_float f) ∨ (∃ z : Z, x = str_int z).

(** A cell of a value column: the sentinel, or printed numbers joined. *)
Definition cell_text (y : str) : Prop :=
  y = lit "NA" ∨ ∃ l, y = py_join (lit ";") l ∧ Forall printed l.

(** A block of value columns: one cell for each sample name. *)
Definition value_cells (snl cells : list str) : Prop :=
  length cells = length snl ∧ Forall cell_text cells.

(** What is known of a line that is written. *)
Definition emitted (snl : list str) (mr total : Z) (line : str)
    (olist tsamples : list str) : Prop :=
  ∃ (r : row) fc_list qval_list pval_list start_list end_list,
    parse_row line = Ok r
    ∧ olist = fields_of snl total r tsamples fc_list qval_list pval_list
                start_list end_list
    ∧ tsamples ≠ []
    ∧ StronglySorted py_lt tsamples
    ∧ (∀ s, s ∈ tsamples ↔ contributes r (passing mr r) s)
    ∧ Forall (value_cells snl)
        [fc_list; qval_list; pval_list; start_list; end_list].

(** [w] is the line written for [fields]; the fields are what splitting
    the line at the tabs gives back, as long as no printed float holds a
    tab. *)
Definition written_fields (w : str) (fields : list str) : Prop :=
  w = out_line fields
  ∧ ((∀ f : pyfloat, tab ∉ str_float f) →
     py_split [tab] (py_join [tab] fields) = fields).

(** The [k]-th row written (from 0) for the sample names [snl]. *)
Definition row_line (snl : list str) (k : nat) (w : str) : Prop :=
  ∃ fields,
    written_fields w fields
    ∧ length fields = (6 + 6 * length snl)%nat
    ∧ fields !! 3%nat = Some (lit "Interval_" ++ str_int (Z.of_nat k + 1))
    ∧ fields !! 5%nat
      = Some (str_int (Z.of_nat (count_true (take (length snl) (drop 6 fields))))).

(** The text written for a line when [total] rows were written before. *)
Definition row_text (snl : list str) (mr total : Z) (line : str) : str :=
  match line_output snl mr total line with
  | Ok (Some (olist, _)) => out_line olist
  | _ => []
  end.

(** What holds of the state of the loop at each line. *)
Definition loop_invariant (snl : list str) (st : state) : Prop :=
  ∃ rows,
    written st = out_line (ofields snl) :: rows
    ∧ total_out_intervals st = Z.of_nat (length rows)
    ∧ (∀ k w, rows !! k = Some w → row_line snl k w)
    ∧ sum_counts (comb_freq_dict st) = Z.of_nat (length rows).

End Vocabulary.

(** ** Lines that can be processed *)

Section Readable.
Context {N : PyNum}.

(** The line has no column of names. *)
Definition lacks_names (line : str) : Prop :=
  (length (line_fields line) ≤ 5)%nat.


(** The tokens of a comma-separated field are integers, or floats. *)
Definition int_tokens (field : str) : Prop :=
  Forall (λ t, is_Some (py_int t)) (py_split (lit ",") field).

Definition float_tokens (field : str) : Prop :=
  Forall (λ t, is_Some (py_float t)) (py_split (lit ",") field).

(** The line has the columns 0 to 10, with integers in the columns 1 and
    2, integers separated by commas in the columns 3 and 4, and floats
    separated by commas in the columns 8, 9 and 10. *)
Definition numeric_fields (line : str) : Prop :=
  ∃ f1 f2 f3 f4 f8 f9 f10,
    line_fields line !! 1%nat = Some f1 ∧ line_fields line !! 2%nat = Some f2
    ∧ line_fields line !! 3%nat = Some f3 ∧ line_fields line !! 4%nat = Some f4
    ∧ line_fields line !! 8%nat = Some f8 ∧ line_fields line !! 9%nat = Some f9
    ∧ line_fields line !! 10%nat = Some f10
    ∧ is_Some (py_int f1) ∧ is_Some (py_int f2)
    ∧ int_tokens f3 ∧ int_tokens f4
    ∧ float_tokens f8 ∧ float_tokens f9 ∧ float_tokens f10.

(** The line is processed without an exception: it is read as a row, and
    each source that passes has a value in each of the five sequences. *)
Definition readable (mr : Z) (line : str) : Prop :=
  ∃ r, parse_row line = Ok r
       ∧ ∀ idx, eligible r (passing mr r) idx → complete r idx.

(** The five sequences of values have one value for each source. *)
Definition aligned (r : row) : Prop :=
  length (fcs r) = length (names r) ∧ length (qvals r) = length (names r)
  ∧ length (pvals r) = length (names r) ∧ length (starts r) = length (names r)
  ∧ length (ends r) = length (names r).

(** ** The row of a line in closed form *)

(** The combination of a row: its contributing samples, each once, in
    order. *)
Definition combination (mr : Z) (r : row) : list str :=
  py_sorted (remove_dups (contributing_samples mr r)).

(** The combination counted for a line, if the line gives a row. *)
Definition combination_of (mr : Z) (line : str) : option (list str) :=
  match parse_row line with
  | Ok r => if decide (combination mr r = []) then None
            else Some (combination mr r)
  | Raise _ => None
  end.

(** The number of lines counted for the combination [key]. *)
Definition rows_with (mr : Z) (key : list str) (lines : list str) : nat :=
  length (filter (λ line, combination_of mr line = Some key) lines).

(** The entry of the table for a combination counted [n] times. *)
Definition count_entry (n : nat) : option Z :=
  match n with
  | O => None
  | S _ => Some (Z.of_nat n)
  end.

(** The cell of the sample [x] in the block of the column [col]. *)
Definition cell_of (present : list str) (r : row) (col : list str) (x : str)
  : str :=
  if decide (x ∈ present) then py_join (lit ";") (values_of (names r) col x)
  else lit "NA".

(** The fields of the row written for [r]. *)
Definition expected_fields (snl : list str) (total mr : Z) (r : row)
  : list str :=
  let present := combination mr r in
  fields_of snl total r present
    (cell_of present r (str_float <$> fcs r) <$> snl)
    (cell_of present r (str_float <$> qvals r) <$> snl)
    (cell_of present r (str_float <$> pvals r) <$> snl)
    (cell_of present r (str_int <$> starts r) <$> snl)
    (cell_of present r (str_int <$> ends r) <$> snl).

End Readable.

(** * The data of the examples *)

(** ** An interpreter for the examples

    [int()] on plain decimal numerals and [float()] on the short decimal
    numerals that [str()] prints back unchanged: an optional sign, an
    integer part without leading zero, a point, a fraction without
    trailing zero, at most 15 digits, and no more than three zeros after
    ["0."]. *)

Definition digit_of (c : ascii) : option Z :=
  let n := nat_of_ascii c in
  if ((48 <=? n) && (n <=? 57))%nat then Some (Z.of_nat (n - 48)) else None.

Fixpoint digits_value (acc : Z) (s : str) : option Z :=
  match s with
  | [] => Some acc
  | c :: s' => d ← digit_of c; digits_value (10 * acc + d) s'
  end.

Definition plain_int (s : str) : option Z :=
  match s with
  | [] => None
  | "-"%char :: s' => if decide (s' = []) then None else Z.opp <$> digits_value 0 s'
  | _ => digits_value 0 s
  end.

Definition all_digits (s : str) : bool :=
  forallb (λ c, bool_decide (is_Some (digit_of c))) s.

Definition short_decimal (s : str) : bool :=
  let body := match s with "-"%char :: s' => s' | _ => s end in
  match py_split (lit ".") body with
  | [i; f] =>
      all_digits i && all_digits f
      && negb (bool_decide (i = [])) && negb (bool_decide (f = []))
      && (bool_decide (i = lit "0") || negb (bool_decide (hd "0"%char i = "0"%char)))
      && (bool_decide (f = lit "0") || negb (bool_decide (last f = Some "0"%char)))
      && bool_decide (length i + length f ≤ 15)%nat
      && (negb (bool_decide (i = lit "0")) || bool_decide (f = lit "0")
          || negb (starts_with (lit "0000") f))
  | _ => false
  end.

(** A float of the examples is its decimal numeral, integer part and
    fraction. *)
Definition plain_float (s : str) : option (Decimal.int * Decimal.uint) :=
  if short_decimal s then
    match py_split (lit ".") s with
    | [i; f] =>
        i' ← NilEmpty.int_of_string (string_of_list_ascii i);
        f' ← NilEmpty.uint_of_string (string_of_list_ascii f);
        Some (i', f')
    | _ => None
    end
  else None.

(** [str()] of a float of the examples. *)
Definition plain_str_float (x : Decimal.int * Decimal.uint) : str :=
  list_ascii_of_string (NilEmpty.string_of_int x.1) ++ lit "."
  ++ list_ascii_of_string (NilEmpty.string_of_uint x.2).

Definition plain_num : PyNum :=
  {| pyfloat := Decimal.int * Decimal.uint; py_int := plain_int;
     py_float := plain_float; str_float := plain_str_float |}.

(** A line of the input or of the output, from its fields. *)
Definition tsv (fields : list string) : str :=
  py_join [tab] (lit <$> fields) ++ [newline].

(** The value of a computation that does not raise. *)
Definition value_or {A} (d : A) (m : result A) : A :=
  match m with
  | Ok a => a
  | Raise _ => d
  end.

(** Three merged intervals: the samples A_rep1, A_rep2 and B_rep1; B_rep1
    alone; A_rep2 and A_rep1. *)
Definition interval_1 : str :=
  tsv ["chr1"; "100"; "500"; "100,200,150"; "300,500,400";
       "A_rep1_peak_1,A_rep2_peak_1,B_rep1_peak_1"; "0,0,0"; "10,12,5";
       "2.1,2.3,1.9"; "5.0,6.0,4.0"; "3.5,4.5,2.5"].
Definition interval_2 : str :=
  tsv ["chr1"; "900"; "950"; "900"; "950"; "B_rep1_peak_2"; "0"; "7"; "1.5";
       "4.0"; "2.0"].
Definition interval_3 : str :=
  tsv ["chr2"; "10"; "90"; "10,20"; "80,90"; "A_rep2_peak_7,A_rep1_peak_9";
       "0,0"; "3,4"; "6.5,7.5"; "9.0,8.0"; "4.25,5.25"].
Definition three_intervals : list str := [interval_1; interval_2; interval_3].

(** A row with one source and two fold-changes, and a row with two sources
    and one fold-change. *)
Definition long_fold_changes : str :=
  tsv ["chr1"; "100"; "500"; "100"; "500"; "A_rep1_peak_1"; "0"; "10";
       "2.1,2.3"; "5.0"; "3.5"].
Definition short_fold_changes : str :=
  tsv ["chr3"; "100"; "500"; "100,200"; "300,500";
       "A_rep1_peak_4,A_rep2_peak_4"; "0,0"; "10,12"; "2.1"; "5.0,6.0";
       "3.5,4.5"].

(** ** A run with a threshold of two replicates *)

(** The lines that the run writes for the three intervals. *)
Definition three_header : str :=
  tsv ["chr"; "start"; "end"; "interval_id"; "num_peaks"; "num_samples";
       "A_rep1.bool"; "A_rep2.bool"; "B_rep1.bool";
       "A_rep1.fc"; "A_rep2.fc"; "B_rep1.fc";
       "A_rep1.qval"; "A_rep2.qval"; "B_rep1.qval";
       "A_rep1.pval"; "A_rep2.pval"; "B_rep1.pval";
       "A_rep1.start"; "A_rep2.start"; "B_rep1.start";
       "A_rep1.end"; "A_rep2.end"; "B_rep1.end"].
Definition three_row_1 : str :=
  tsv ["chr1"; "100"; "500"; "Interval_1"; "3"; "2"; "TRUE"; "TRUE"; "FALSE";
       "2.1"; "2.3"; "NA"; "3.5"; "4.5"; "NA"; "5.0"; "6.0"; "NA";
       "100"; "200"; "NA"; "300"; "500"; "NA"].
Definition three_row_2 : str :=
  tsv ["chr2"; "10"; "90"; "Interval_2"; "2"; "2"; "TRUE"; "TRUE"; "FALSE";
       "7.5"; "6.5"; "NA"; "5.25"; "4.25"; "NA"; "8.0"; "9.0"; "NA";
       "20"; "10"; "NA"; "90"; "80"; "NA"].

(** The sample names of the three intervals. *)
Definition three_samples : gset str :=
  value_or ∅ (collect_sample_names three_intervals).

(** A row without source. *)
Definition empty_row : @row plain_num :=
  {| chrom_id := []; mstart := 0; mend := 0; starts := []; ends := [];
     names := []; fcs := []; pvals := []; qvals := [] |}.

(** The first of the three intervals, read. *)
Definition first_row : @row plain_num :=
  value_or empty_row (parse_row interval_1).

(** The row with two sources and one fold-change, read. *)
Definition short_row : @row plain_num :=
  value_or empty_row (parse_row short_fold_changes).

(** ** Lines that end a run, and lines with white space around *)

Definition carriage_return : ascii := "013"%char.

(** A line of white space only. *)
Definition blank_line : str := [" "%char; carriage_return; newline].

(** A row whose start is no integer. *)
Definition bad_coordinate : str :=
  tsv ["chr1"; "1e3"; "500"; "100"; "500"; "A_rep1_peak_1"; "0"; "10"; "2.1";
       "5.0"; "3.5"].


(** The fields of the row of the first interval for a threshold of 2. *)
Definition first_row_fields : list str :=
  lit <$> ["chr1"; "100"; "500"; "Interval_1"; "3"; "2"; "TRUE"; "TRUE";
           "FALSE"; "2.1"; "2.3"; "NA"; "3.5"; "4.5"; "NA"; "5.0"; "6.0";
           "NA"; "100"; "200"; "NA"; "300"; "500"; "NA"].

(** The second of the three intervals, read. *)
Definition second_row : @row plain_num :=
  value_or empty_row (parse_row interval_2).

(** * Verification *)

(** ** The order of Python values *)

Global Instance ascii_ord_laws : PyOrdLaws ascii.
Proof.
  split; unfold py_cmp, ascii_ord, Ascii.compare.
  - intros a b. rewrite N.compare_eq_iff. split; [|congruence].
    intros E. rewrite <- (ascii_N_embedding a), <- (ascii_N_embedding b).
    congruence.
  - intros a b. apply N.compare_antisym.
  - intros a b c. rewrite !N.compare_lt_iff. lia.
Qed.

Global Instance Z_ord_laws : PyOrdLaws Z.
Proof.
  split; unfold py_cmp, Z_ord.
  - apply Z.compare_eq_iff.
  - intros a b. apply Z.compare_antisym.
  - intros a b c. rewrite !Z.compare_lt_iff. lia.
Qed.

Lemma StronglySorted_weaken {A} (R R' : relation A) (l : list A) :
  (∀ a b, R a b → R' a b) → StronglySorted R l → StronglySorted R' l.
Proof.
  intros HR. induction 1 as [|a l _ IH Ha]; constructor; [done|].
  eapply Forall_impl; [done|]. auto.
Qed.

Section OrdFacts.
Context {A : Type} `{PyOrdLaws A}.

Lemma cmp_refl (a : A) : py_cmp a a = Eq.
Proof. by apply cmp_eq. Qed.

Lemma cmp_gt_lt (a b : A) : py_cmp a b = Gt ↔ py_cmp b a = Lt.
Proof. rewrite (cmp_antisym b a). destruct (py_cmp b a); naive_solver. Qed.

Lemma py_lt_irrefl (a : A) : ¬ py_lt a a.
Proof. unfold py_lt. by rewrite cmp_refl. Qed.

Lemma py_lt_trans (a b c : A) : py_lt a b → py_lt b c → py_lt a c.
Proof. apply cmp_trans. Qed.

Lemma py_le_lt_or_eq (a b : A) : py_le a b ↔ py_lt a b ∨ a = b.
Proof.
  unfold py_le, py_lt. rewrite (cmp_antisym a b).
  destruct (py_cmp a b) eqn:E; simpl.
  - apply cmp_eq in E. naive_solver.
  - naive_solver.
  - split; [done|]. intros [?| ->]; [done|]. by rewrite cmp_refl in E.
Qed.

Lemma py_lt_not_le (a b : A) : py_lt a b ↔ ¬ py_le b a.
Proof. unfold py_lt, py_le. destruct (py_cmp a b); naive_solver. Qed.

Global Instance py_le_total : Total (@py_le A _).
Proof.
  intros a b. unfold py_le. rewrite (cmp_antisym a b).
  destruct (py_cmp a b); naive_solver.
Qed.

Global Instance py_le_trans : Transitive (@py_le A _).
Proof.
  intros a b c. rewrite !py_le_lt_or_eq.
  intros [?| ->] [?| ->]; eauto using py_lt_trans.
Qed.

Global Instance py_le_antisym : AntiSymm (=) (@py_le A _).
Proof.
  intros a b. rewrite !py_le_lt_or_eq. intros [Hab| ->] [Hba|E]; try done.
  destruct (py_lt_irrefl a). eauto using py_lt_trans.
Qed.

Lemma py_sorted_perm (l : list A) : py_sorted l ≡ₚ l.
Proof. apply merge_sort_Permutation. Qed.

Lemma py_sorted_sorted (l : list A) : StronglySorted py_le (py_sorted l).
Proof. apply StronglySorted_merge_sort; apply _. Qed.

(** Sorting forgets the order in which the elements came. *)
Lemma py_sorted_of_perm (l k : list A) : l ≡ₚ k → py_sorted l = py_sorted k.
Proof.
  intros P. apply (StronglySorted_unique py_le); auto using py_sorted_sorted.
  by rewrite !py_sorted_perm.
Qed.

Lemma py_sorted_elem (l : list A) (x : A) : x ∈ py_sorted l ↔ x ∈ l.
Proof. by rewrite py_sorted_perm. Qed.

Lemma py_sorted_length (l : list A) : length (py_sorted l) = length l.
Proof. by rewrite py_sorted_perm. Qed.

Lemma py_sorted_nil (l : list A) : py_sorted l = [] ↔ l = [].
Proof.
  split; [|by intros ->].
  intros E. apply length_zero_iff_nil. by rewrite <- py_sorted_length, E.
Qed.

Lemma py_sorted_idem (l : list A) : py_sorted (py_sorted l) = py_sorted l.
Proof. apply py_sorted_of_perm, py_sorted_perm. Qed.

(** Without repetition a sorted list ascends strictly. *)
Lemma py_sorted_strict (l : list A) :
  NoDup l → StronglySorted py_lt (py_sorted l).
Proof.
  intros ND. rewrite <- py_sorted_perm in ND.
  generalize (py_sorted_sorted l) ND. generalize (py_sorted l).
  induction 1 as [|a k Hk IH Ha]; intros ND'; [constructor|].
  apply NoDup_cons in ND' as [Hn ND']. constructor; auto.
  rewrite Forall_forall in Ha |- *. intros b Hb.
  destruct (proj1 (py_le_lt_or_eq a b) (Ha b Hb)) as [?| ->]; done.
Qed.

End OrdFacts.

Section ListOrd.
Context {A : Type} `{PyOrdLaws A}.

Lemma list_cmp_eq (l k : list A) : list_cmp l k = Eq ↔ l = k.
Proof.
  revert k. induction l as [|a l IH]; intros [|b k]; simpl; try done.
  destruct (py_cmp a b) eqn:E.
  - apply cmp_eq in E as ->. rewrite IH. naive_solver.
  - split; [done|]. intros [= -> ->]. by rewrite cmp_refl in E.
  - split; [done|]. intros [= -> ->]. by rewrite cmp_refl in E.
Qed.

Lemma list_cmp_antisym (l k : list A) : list_cmp k l = CompOpp (list_cmp l k).
Proof.
  revert k. induction l as [|a l IH]; intros [|b k]; simpl; try done.
  rewrite (cmp_antisym a b). destruct (py_cmp a b); simpl; auto.
Qed.

Lemma list_cmp_trans (l k m : list A) :
  list_cmp l k = Lt → list_cmp k m = Lt → list_cmp l m = Lt.
Proof.
  revert k m. induction l as [|a l IH]; intros [|b k] [|c m]; simpl; try done.
  destruct (py_cmp a b) eqn:Eab; try done.
  - apply cmp_eq in Eab as ->. destruct (py_cmp b c); eauto.
  - destruct (py_cmp b c) eqn:Ebc; try done.
    + apply cmp_eq in Ebc as ->. by rewrite Eab.
    + by rewrite (cmp_trans a b c).
Qed.

(** The comparison of lists is the lexicographic order. *)
Lemma list_lt_lexicographic (l k : list A) :
  py_lt l k ↔ lexicographically_less l k.
Proof.
  unfold py_lt, lexicographically_less, py_cmp at 1, list_ord.
  revert k. induction l as [|a l IH]; intros [|b k]; simpl.
  - split; [done|]. intros [(? & ? & ?)|(p & ? & ? & ? & ? & E & _)]; [done|].
    by destruct p.
  - split; [|done]. intros _. left. by exists b, k.
  - split; [done|]. intros [(? & ? & ?)|(p & ? & ? & ? & ? & _ & E & _)]; [done|].
    by destruct p.
  - destruct (py_cmp a b) eqn:E.
    + apply cmp_eq in E as <-. rewrite IH. split.
      * intros [(x & t & ->)|(p & a' & b' & l' & k' & -> & -> & Hlt)].
        -- left. by exists x, t.
        -- right. by exists (a :: p), a', b', l', k'.
      * intros [(x & t & [= ->])|(p & a' & b' & l' & k' & El & Ek & Hlt)].
        -- left. by exists x, t.
        -- destruct p as [|c p]; simplify_eq/=.
           ++ by destruct (py_lt_irrefl a').
           ++ right. by exists p, a', b', l', k'.
    + split; [|done]. intros _. right. by exists [], a, b, l, k.
    + split; [done|].
      intros [(x & t & [= -> _])|(p & a' & b' & l' & k' & El & Ek & Hlt)].
      * by rewrite cmp_refl in E.
      * destruct p as [|c p]; simplify_eq/=.
        -- unfold py_lt in Hlt. congruence.
        -- by rewrite cmp_refl in E.
Qed.

Global Instance list_ord_laws : PyOrdLaws (list A).
Proof.
  split; [apply list_cmp_eq|apply list_cmp_antisym|apply list_cmp_trans].
Qed.

End ListOrd.

Global Instance pair_ord_laws {A B} `{PyOrdLaws A, PyOrdLaws B} :
  PyOrdLaws (A * B).
Proof.
  split; unfold py_cmp, pair_ord.
  - intros [a1 b1] [a2 b2]; simpl. destruct (py_cmp a1 a2) eqn:E.
    + apply cmp_eq in E as ->. rewrite cmp_eq. naive_solver.
    + split; [done|]. intros [= -> ->]. by rewrite cmp_refl in E.
    + split; [done|]. intros [= -> ->]. by rewrite cmp_refl in E.
  - intros [a1 b1] [a2 b2]; simpl. rewrite (cmp_antisym a1 a2).
    destruct (py_cmp a1 a2); simpl; auto using cmp_antisym.
  - intros [a1 b1] [a2 b2] [a3 b3]; simpl.
    destruct (py_cmp a1 a2) eqn:E12; try done.
    + apply cmp_eq in E12 as ->. destruct (py_cmp a2 a3); eauto using cmp_trans.
    + destruct (py_cmp a2 a3) eqn:E23; try done.
      * apply cmp_eq in E23 as ->. by rewrite E12.
      * by rewrite (cmp_trans a1 a2 a3).
Qed.

(** ** Strings *)

Lemma starts_with_spec (p s : str) : starts_with p s = true ↔ ∃ r, s = p ++ r.
Proof.
  revert s. induction p as [|a p IH]; intros s; simpl.
  - naive_solver.
  - destruct s as [|b s]; [naive_solver|].
    destruct (Ascii.eqb_spec a b) as [->|Hne].
    + rewrite IH. naive_solver.
    + naive_solver.
Qed.

Lemma before_first_none (sep s : str) :
  (∀ p r, s ≠ p ++ sep ++ r) → before_first sep s = s.
Proof.
  induction s as [|c s IH]; intros Hno; simpl; [done|].
  destruct (starts_with sep (c :: s)) eqn:E.
  - apply starts_with_spec in E as [r E]. by destruct (Hno [] r).
  - f_equal. apply IH. intros p r ->. by destruct (Hno (c :: p) r).
Qed.

Lemma before_first_occurrence (sep s p r : str) :
  s = p ++ sep ++ r →
  (∀ p' r', s = p' ++ sep ++ r' → length p ≤ length p')%nat →
  before_first sep s = p.
Proof.
  revert s. induction p as [|c p IH]; intros s -> Hfirst; simpl.
  - destruct (sep ++ r) as [|c s] eqn:E; [done|]. simpl.
    rewrite <- E. by rewrite (proj2 (starts_with_spec sep (sep ++ r))); eauto.
  - destruct (starts_with sep (c :: p ++ sep ++ r)) eqn:E.
    + apply starts_with_spec in E as [r' E].
      specialize (Hfirst [] r' E). simpl in Hfirst. lia.
    + f_equal. apply IH; [done|]. intros p' r' E'.
      specialize (Hfirst (c :: p') r'). simpl in Hfirst.
      rewrite E' in Hfirst. specialize (Hfirst eq_refl). lia.
Qed.

Lemma split_from_hd (sep cur s : str) :
  sep ≠ [] → hd [] (split_from sep 0 cur s) = cur ++ before_first sep s.
Proof.
  intros Hsep. revert cur. induction s as [|c s IH]; intros cur; simpl.
  - by rewrite app_nil_r.
  - destruct (starts_with sep (c :: s)); simpl.
    + by rewrite app_nil_r.
    + rewrite IH. by rewrite <- app_assoc.
Qed.

Lemma py_split_hd (sep s : str) :
  sep ≠ [] → hd [] (py_split sep s) = before_first sep s.
Proof. intros. unfold py_split. by rewrite split_from_hd. Qed.

Lemma split_from_nonempty (sep : str) (k : nat) (cur s : str) :
  split_from sep k cur s ≠ [].
Proof.
  revert k cur. induction s as [|c s IH]; intros k cur; simpl; [done|].
  destruct k; [|done]. by destruct (starts_with sep (c :: s)).
Qed.

(** The pieces of a split are made of characters of the text. *)
Lemma split_from_chars (sep : str) (k : nat) (cur s t : str) (c : ascii) :
  t ∈ split_from sep k cur s → c ∈ t → c ∈ cur ∨ c ∈ s.
Proof.
  revert k cur. induction s as [|a s IH]; intros k cur; simpl.
  - rewrite list_elem_of_singleton. intros -> ?. by left.
  - destruct k as [|k].
    + destruct (starts_with sep (a :: s)).
      * rewrite elem_of_cons. intros [->|Ht] Hc; [by left|].
        destruct (IH _ _ Ht Hc) as [[]%elem_of_nil|?]. right. by right.
      * intros Ht Hc. destruct (IH _ _ Ht Hc) as [Hin|?].
        -- apply elem_of_app in Hin as [?|Hin]; [by left|].
           apply list_elem_of_singleton in Hin as ->. right. by left.
        -- right. by right.
    + intros Ht Hc. destruct (IH _ _ Ht Hc); [by left|]. right. by right.
Qed.

Lemma py_split_chars (sep s t : str) (c : ascii) :
  t ∈ py_split sep s → c ∈ t → c ∈ s.
Proof.
  intros Ht Hc. destruct (split_from_chars _ _ _ _ _ _ Ht Hc) as [[]%elem_of_nil|?].
  done.
Qed.

Lemma before_first_chars (sep s : str) (c : ascii) :
  c ∈ before_first sep s → c ∈ s.
Proof.
  induction s as [|a s IH]; simpl; [done|].
  destruct (starts_with sep (a :: s)); [by intros []%elem_of_nil|].
  rewrite !elem_of_cons. naive_solver.
Qed.

(** *** Splitting at a single character *)

Section SplitChar.
Variable c : ascii.

Lemma split_char_cons (cur s : str) (a : ascii) :
  split_from [c] 0 cur (a :: s) =
    if Ascii.eqb c a then cur :: split_from [c] 0 [] s
    else split_from [c] 0 (cur ++ [a]) s.
Proof. simpl. by destruct (Ascii.eqb c a). Qed.

Lemma split_char_free (cur s : str) :
  c ∉ s → split_from [c] 0 cur s = [cur ++ s].
Proof.
  revert cur. induction s as [|a s IH]; intros cur Hc.
  - by rewrite app_nil_r.
  - rewrite split_char_cons. apply not_elem_of_cons in Hc as [Hne Hc].
    destruct (Ascii.eqb_spec c a); [done|].
    rewrite IH by done. by rewrite <- app_assoc.
Qed.

Lemma split_char_app (cur a b : str) :
  split_from [c] 0 cur (a ++ c :: b) =
    split_from [c] 0 cur a ++ split_from [c] 0 [] b.
Proof.
  revert cur. induction a as [|x a IH]; intros cur.
  - simpl app at 1. rewrite split_char_cons, Ascii.eqb_refl. done.
  - rewrite <- app_comm_cons, !split_char_cons.
    destruct (Ascii.eqb c x); by rewrite IH.
Qed.

Lemma split_char_pieces (cur s t : str) :
  t ∈ split_from [c] 0 cur s → c ∉ cur → c ∉ t.
Proof.
  revert cur. induction s as [|a s IH]; intros cur.
  - simpl. by intros ->%list_elem_of_singleton.
  - rewrite split_char_cons. destruct (Ascii.eqb_spec c a) as [->|Hne].
    + rewrite elem_of_cons. intros [->|Ht] Hc; [done|].
      apply (IH [] Ht). apply not_elem_of_nil.
    + intros Ht Hc. apply (IH _ Ht). rewrite elem_of_app, list_elem_of_singleton.
      naive_solver.
Qed.

Lemma py_split_pieces (s t : str) : t ∈ py_split [c] s → c ∉ t.
Proof. intros Ht. apply (split_char_pieces _ _ _ Ht), not_elem_of_nil. Qed.

Lemma join_split_from (cur s : str) :
  py_join [c] (split_from [c] 0 cur s) = cur ++ s.
Proof.
  revert cur. induction s as [|a s IH]; intros cur.
  - simpl. by rewrite app_nil_r.
  - rewrite split_char_cons. destruct (Ascii.eqb_spec c a) as [->|Hne].
    + pose proof (split_from_nonempty [a] 0 [] s) as Hne.
      specialize (IH []). simpl in *.
      destruct (split_from [a] 0 [] s); [done|]. by rewrite IH.
    + rewrite IH. by rewrite <- app_assoc.
Qed.

Lemma join_py_split (s : str) : py_join [c] (py_split [c] s) = s.
Proof. apply join_split_from. Qed.

(** Fields without the separator are read back as they were joined. *)
Lemma py_split_join (l : list str) :
  l ≠ [] → Forall (λ t, c ∉ t) l → py_split [c] (py_join [c] l) = l.
Proof.
  induction l as [|t l IH]; [done|]. intros _ Hl.
  apply Forall_cons in Hl as [Ht Hl]. destruct l as [|u l].
  - simpl. unfold py_split. by rewrite split_char_free.
  - change (py_join [c] (t :: u :: l)) with (t ++ c :: py_join [c] (u :: l)).
    unfold py_split in *. rewrite split_char_app, IH by done.
    by rewrite split_char_free.
Qed.

Lemma py_join_chars (l : list str) (a : ascii) :
  a ∈ py_join [c] l → a = c ∨ ∃ t, t ∈ l ∧ a ∈ t.
Proof.
  induction l as [|t l IH]; simpl; [by intros []%elem_of_nil|].
  destruct l as [|u l].
  - intros ?. right. exists t. split; [by left|done].
  - rewrite elem_of_app, elem_of_cons. intros [?|[->|Hin]].
    + right. exists t. split; [by left|done].
    + by left.
    + destruct (IH Hin) as [?|(t' & ? & ?)]; [by left|].
      right. exists t'. split; [by right|done].
Qed.

End SplitChar.

Lemma before_first_part (sep s : str) :
  sep ≠ [] → part_before sep s (before_first sep s).
Proof.
  intros Hsep. induction s as [|c s IH]; simpl.
  - left. split; [done|]. intros q r E. symmetry in E.
    apply app_eq_nil in E as [_ [E _]%app_eq_nil]. done.
  - destruct (starts_with sep (c :: s)) eqn:E.
    + apply starts_with_spec in E as [r E]. right. exists r.
      split; [done|]. intros; simpl; lia.
    + assert (Hq : ∀ q r', c :: s = q ++ sep ++ r' →
                ∃ q', q = c :: q' ∧ s = q' ++ sep ++ r').
      { intros [|c' q'] r' E'.
        - assert (starts_with sep (c :: s) = true) as E2
            by (apply starts_with_spec; eauto). congruence.
        - simpl in E'. injection E' as -> ->. eauto. }
      destruct IH as [[E1 Hno]|(r & E1 & Hmin)].
      * left. rewrite E1. split; [done|].
        intros q r' E'. destruct (Hq _ _ E') as (q' & -> & E2).
        by destruct (Hno q' r').
      * right. exists r. split; [by rewrite <- app_comm_cons, <- E1|].
        intros q r' E'. destruct (Hq _ _ E') as (q' & -> & E2).
        specialize (Hmin _ _ E2). simpl. lia.
Qed.

Lemma part_before_unique (sep s p : str) :
  part_before sep s p → p = before_first sep s.
Proof.
  intros [[-> Hno]|(r & E & Hmin)].
  - by rewrite before_first_none.
  - symmetry. by apply (before_first_occurrence sep s p r).
Qed.

Lemma part_before_iff (sep s p : str) :
  sep ≠ [] → part_before sep s p ↔ p = before_first sep s.
Proof.
  intros Hsep. split; [apply part_before_unique|].
  intros ->. by apply before_first_part.
Qed.

(** ** Exceptions *)

Lemma bind_ok {A B} (m : result A) (f : A → result B) (b : B) :
  m ≫= f = Ok b ↔ ∃ a, m = Ok a ∧ f a = Ok b.
Proof. destruct m; simpl; naive_solver. Qed.

Lemma fmap_ok {A B} (m : result A) (f : A → B) (b : B) :
  f <$> m = Ok b ↔ ∃ a, m = Ok a ∧ b = f a.
Proof. destruct m; simpl; naive_solver. Qed.

Lemma mapM_ok {A B} (f : A → result B) (l : list A) (k : list B) :
  mapM f l = Ok k ↔ Forall2 (λ x y, f x = Ok y) l k.
Proof.
  revert k. induction l as [|x l IH]; intros k; simpl.
  - split; [intros [= <-]; constructor|by intros ->%Forall2_nil_inv_l].
  - split.
    + intros (y & Hy & (k' & Hk' & [= <-])%bind_ok)%bind_ok.
      constructor; [done|]. by apply IH.
    + intros (y & k' & Hy & Hk' & ->)%Forall2_cons_inv_l.
      rewrite Hy. simpl. apply IH in Hk'. by rewrite Hk'.
Qed.

Lemma mapM_total {A B} (f : A → result B) (l : list A) :
  (∀ x, x ∈ l → ∃ y, f x = Ok y) → ∃ k, mapM f l = Ok k.
Proof.
  induction l as [|x l IH]; intros Hf; simpl; [by eauto|].
  destruct (Hf x) as [y ->]; [by left|].
  destruct IH as [k ->]; [intros; apply Hf; by right|]. simpl. eauto.
Qed.

(** ** The script *)

Section Verification.
Context {N : PyNum} (ord : SetOrder).

Implicit Types (line field name sid gid s : str) (lines : list str).

(** *** Sample names *)

Lemma sample_id_before_first name :
  sample_id name = before_first (lit "_peak_") (before_first (lit ".") name).
Proof. unfold sample_id. by rewrite !py_split_hd. Qed.

Lemma sample_id_derived name s : derived_from name s ↔ s = sample_id name.
Proof.
  rewrite sample_id_before_first. unfold derived_from. split.
  - intros (t & Ht & Hs). apply part_before_unique in Ht as ->.
    by apply part_before_unique in Hs.
  - intros ->. eexists. split; by apply before_first_part.
Qed.

Lemma line_names_ok line :
  (5 < length (line_fields line))%nat →
  ∃ names, line_names line = Ok names ∧ ∀ name, name ∈ names ↔ source_of line name.
Proof.
  intros Hlen. unfold line_names, index, source_of.
  destruct (line_fields line !! 5%nat) as [field|] eqn:E.
  - exists (py_split (lit ",") field). split; [done|]. naive_solver.
  - apply lookup_ge_None in E. lia.
Qed.

Lemma line_names_raise line :
  ¬ (5 < length (line_fields line))%nat → line_names line = Raise IndexError.
Proof.
  intros Hlen. unfold line_names, index.
  destruct (line_fields line !! 5%nat) eqn:E; [|done].
  apply lookup_lt_Some in E. lia.
Qed.

Lemma collect_from (acc : gset str) lines :
  Forall (λ line, 5 < length (line_fields line))%nat lines →
  ∃ all, for_each collect_step acc lines = Ok all ∧
    ∀ s, s ∈ all ↔
      s ∈ acc ∨ ∃ line name, line ∈ lines ∧ source_of line name ∧ s = sample_id name.
Proof.
  intros Hlines. revert acc.
  induction Hlines as [|line lines Hlen _ IH]; intros acc; simpl.
  - exists acc. split; [done|]. intros s. split; [by left|].
    intros [?|(? & ? & []%elem_of_nil & _)]. done.
  - destruct (line_names_ok line Hlen) as (names & E & Hnames).
    assert (collect_step acc line
            = Ok (acc ∪ list_to_set (sample_id <$> names))) as ->
      by (unfold collect_step; by rewrite E).
    simpl.
    destruct (IH (acc ∪ list_to_set (sample_id <$> names))) as (all & -> & Hall).
    exists all. split; [done|]. intros s. rewrite Hall.
    rewrite elem_of_union, elem_of_list_to_set, list_elem_of_fmap.
    split.
    + intros [[?|(name & -> & Hn)]|(l & name & ? & ? & ->)].
      * by left.
      * right. exists line, name. rewrite <- Hnames. split; [by left|done].
      * right. exists l, name. split; [by right|done].
    + intros [?|(l & name & [->|?]%elem_of_cons & Hsrc & ->)].
      * left. by left.
      * left. right. exists name. by rewrite Hnames.
      * right. by exists l, name.
Qed.

Lemma collect_has_names (acc all : gset str) lines :
  for_each collect_step acc lines = Ok all →
  Forall (λ line, 5 < length (line_fields line))%nat lines.
Proof.
  revert acc. induction lines as [|line lines IH]; intros acc; simpl; [done|].
  intros (acc' & Hstep & Hrest)%bind_ok. constructor; [|by eapply IH].
  destruct (decide (5 < length (line_fields line))%nat) as [|Hn]; [done|].
  unfold collect_step in Hstep. by rewrite (line_names_raise line Hn) in Hstep.
Qed.

(** The names collected are those of the sources of the lines. *)
Lemma collect_sample_names_elem lines (all : gset str) s :
  collect_sample_names lines = Ok all →
  s ∈ all ↔ ∃ line name, line ∈ lines ∧ source_of line name ∧ s = sample_id name.
Proof.
  intros Hall.
  destruct (collect_from ∅ lines (collect_has_names _ _ _ Hall)) as (all' & E & Hs).
  unfold collect_sample_names in Hall. rewrite Hall in E. injection E as <-.
  rewrite Hs. set_solver.
Qed.

Lemma sorted_sample_names_elem (all : gset str) s :
  s ∈ sorted_sample_names ord all ↔ s ∈ all.
Proof.
  unfold sorted_sample_names.
  by rewrite py_sorted_elem, set_iter_perm, elem_of_elements.
Qed.

Lemma sorted_sample_names_strict (all : gset str) :
  StronglySorted py_lt (sorted_sample_names ord all).
Proof.
  apply py_sorted_strict. rewrite set_iter_perm. apply NoDup_elements.
Qed.

Lemma sorted_sample_names_NoDup (all : gset str) :
  NoDup (sorted_sample_names ord all).
Proof.
  unfold sorted_sample_names.
  rewrite py_sorted_perm, set_iter_perm. apply NoDup_elements.
Qed.

(** C5: when every line has a column 5, the collection of the sample names
    returns, and the sorted list is strictly ascending (sorted, without
    repetition) and holds exactly the names derived from the
    comma-separated tokens of column 5 of the lines: the part of the token
    before its first ["."], cut before its first ["_peak_"], each kept
    whole when the separator does not occur. *)
Theorem discovery_is_sorted_union lines :
  Forall (λ line, 5 < length (line_fields line))%nat lines →
  ∃ all_sample_names,
    collect_sample_names lines = Ok all_sample_names ∧
    StronglySorted lexicographically_less
      (sorted_sample_names ord all_sample_names) ∧
    ∀ s, s ∈ sorted_sample_names ord all_sample_names ↔
      ∃ line name, line ∈ lines ∧ source_of line name ∧ derived_from name s.
Proof.
  intros Hlines. destruct (collect_from ∅ lines Hlines) as (all & E & Hall).
  exists all. split; [done|]. split.
  { eapply StronglySorted_weaken; [|apply sorted_sample_names_strict].
    intros a b. apply list_lt_lexicographic. }
  intros s. rewrite sorted_sample_names_elem, Hall.
  setoid_rewrite sample_id_derived. set_solver.
Qed.

(** *** Replicate groups *)

Lemma group_id_no_underscore sid : "_"%char ∉ sid → group_id sid = [].
Proof.
  intros Hsid. unfold group_id, py_split.
  change (lit "_") with ["_"%char]. by rewrite split_char_free.
Qed.

Lemma group_id_drops_last_token g t :
  "_"%char ∉ t → group_id (g ++ "_"%char :: t) = g.
Proof.
  intros Ht. unfold group_id, py_split, drop_last.
  change (lit "_") with ["_"%char].
  rewrite split_char_app, (split_char_free _ [] t Ht), removelast_last.
  apply join_split_from.
Qed.

Lemma group_step_groups sids group_dict sid :
  groups_of sids group_dict →
  groups_of (sids ++ [sid]) (group_step group_dict sid).
Proof.
  intros [Hdom Hmem]. unfold group_step.
  set (gid := group_id sid).
  set (d := if decide (gid ∈ dom group_dict) then group_dict
            else <[gid:=[]]> group_dict).
  assert (Hd : ∀ g, d !! g = if decide (g = gid)
                             then Some (default [] (group_dict !! gid))
                             else group_dict !! g).
  { intros g. unfold d. destruct (decide (gid ∈ dom group_dict)) as [Hin|Hin].
    - destruct (decide (g = gid)) as [->|]; [|done].
      apply elem_of_dom in Hin as [m ->]. done.
    - apply not_elem_of_dom in Hin. rewrite lookup_insert, Hin.
      destruct (decide (g = gid)) as [->|]; by repeat case_decide. }
  assert (Hold : ∀ s, s ∈ default [] (group_dict !! gid)
                      ↔ s ∈ sids ∧ group_id s = gid).
  { intros s. destruct (group_dict !! gid) as [m|] eqn:E; simpl.
    - by apply Hmem.
    - split; [by intros []%elem_of_nil|]. intros [Hs Hg].
      destruct (Hdom s Hs) as [m Hm]. congruence. }
  assert (Hnd : NoDup (default [] (group_dict !! gid))).
  { destruct (group_dict !! gid) as [m|] eqn:E; simpl; [|constructor].
    exact (proj1 (Hmem _ _ E)). }
  pose proof (Hd gid) as Hdg. rewrite decide_True in Hdg by done.
  rewrite Hdg. simpl.
  destruct (decide (sid ∈ default [] (group_dict !! gid))) as [Hsid|Hsid].
  - split.
    + intros s. rewrite Hd. case_decide; [by eauto|].
      rewrite elem_of_app, list_elem_of_singleton. intros [?| ->]; [auto|done].
    + intros g m. rewrite Hd. case_decide as Hg.
      * intros [= <-]. subst g. split; [done|]. intros s. rewrite Hold.
        rewrite elem_of_app, list_elem_of_singleton. split; [naive_solver|].
        intros [[?| ->] ?]; [done|]. by apply Hold.
      * intros Hm. destruct (Hmem g m Hm) as [? Hiff]. split; [done|].
        intros s. rewrite Hiff, elem_of_app, list_elem_of_singleton.
        split; [naive_solver|]. intros [[?| ->] ?]; done.
  - split.
    + intros s Hs. rewrite lookup_insert. case_decide as Hg; [by eauto|].
      rewrite Hd, decide_False by done. apply Hdom.
      apply elem_of_app in Hs as [?|Hs]; [done|].
      apply list_elem_of_singleton in Hs. by subst s.
    + intros g m. rewrite lookup_insert. case_decide as Hg.
      * intros [= <-]. subst g. split.
        -- apply NoDup_app. split; [done|]. split; [|apply NoDup_singleton].
           intros s Hs ->%list_elem_of_singleton. done.
        -- intros s. rewrite !elem_of_app, !list_elem_of_singleton, Hold.
           naive_solver.
      * rewrite Hd. rewrite decide_False by done.
        intros Hm. destruct (Hmem g m Hm) as [? Hiff]. split; [done|].
        intros s. rewrite Hiff, elem_of_app, list_elem_of_singleton.
        split; [naive_solver|]. intros [[?| ->] ?]; done.
Qed.

Lemma foldl_group_step sids0 d0 sids :
  groups_of sids0 d0 → groups_of (sids0 ++ sids) (foldl group_step d0 sids).
Proof.
  revert sids0 d0. induction sids as [|sid sids IH]; intros sids0 d0 H0; simpl.
  - by rewrite app_nil_r.
  - replace (sids0 ++ sid :: sids) with ((sids0 ++ [sid]) ++ sids)
      by (by rewrite <- app_assoc).
    by apply IH, group_step_groups.
Qed.

Lemma build_group_dict_groups (names : list str) :
  groups_of (sample_id <$> names) (build_group_dict names).
Proof.
  apply (foldl_group_step [] ∅). split.
  - by intros ? []%elem_of_nil.
  - intros ? ?. by rewrite lookup_empty.
Qed.

(** Each group of the dictionary lists the distinct names of the group. *)
Lemma build_group_dict_lookup (names : list str) gid members :
  build_group_dict names !! gid = Some members →
  members ≡ₚ group_members names gid.
Proof.
  intros Hm. destruct (build_group_dict_groups names) as [_ Hmem].
  destruct (Hmem _ _ Hm) as [Hnd Hiff].
  apply NoDup_Permutation; [done|apply NoDup_remove_dups|].
  intros sid. unfold group_members.
  rewrite Hiff, elem_of_remove_dups, list_elem_of_filter. naive_solver.
Qed.

Lemma foldl_pass_step (min_replicates : Z) acc (items : list (str * list str)) sid :
  sid ∈ foldl (pass_step min_replicates) acc items ↔
  sid ∈ acc ∨ ∃ item, item ∈ items ∧
                min_replicates ≤ Z.of_nat (length item.2) ∧ sid ∈ item.2.
Proof.
  revert acc. induction items as [|item items IH]; intros acc; simpl.
  - split; [by left|]. intros [?|(? & []%elem_of_nil & _)]. done.
  - rewrite IH. unfold pass_step. case_decide.
    + rewrite elem_of_app. split.
      * intros [[?|?]|(it & ? & ?)]; [by left|right|right].
        -- exists item. split; [by left|done].
        -- exists it. split; [by right|done].
      * intros [?|(it & [->|?]%elem_of_cons & ? & ?)]; [by left; left|by left; right|].
        right. by exists it.
    + split.
      * intros [?|(it & ? & ?)]; [by left|right]. exists it. split; [by right|done].
      * intros [?|(it & [->|?]%elem_of_cons & ? & ?)]; [by left|lia|].
        right. by exists it.
Qed.

Lemma pass_rep_thresh_elem (min_replicates : Z) (group_dict : gmap str (list str)) sid :
  sid ∈ pass_rep_thresh min_replicates group_dict ↔
  ∃ gid members, group_dict !! gid = Some members ∧
      min_replicates ≤ Z.of_nat (length members) ∧ sid ∈ members.
Proof.
  unfold pass_rep_thresh. rewrite foldl_pass_step. split.
  - intros [[]%elem_of_nil|([gid m] & Hin%elem_of_map_to_list & ? & ?)]. eauto.
  - intros (gid & m & Hm & ? & ?). right. exists (gid, m).
    by rewrite elem_of_map_to_list.
Qed.

(** A sample name passes when its group has enough distinct names. *)
Lemma passes_iff (min_replicates : Z) (names : list str) sid :
  sid ∈ pass_rep_thresh min_replicates (build_group_dict names) ↔
  sid ∈ sample_id <$> names ∧
  min_replicates ≤ Z.of_nat (length (group_members names (group_id sid))).
Proof.
  rewrite pass_rep_thresh_elem.
  destruct (build_group_dict_groups names) as [Hdom Hmem]. split.
  - intros (gid & m & Hm & Hlen & Hsid).
    destruct (Hmem _ _ Hm) as [_ Hiff]. apply Hiff in Hsid as [? <-].
    split; [done|]. by rewrite <- (build_group_dict_lookup _ _ _ Hm).
  - intros [Hsid Hlen]. destruct (Hdom _ Hsid) as [m Hm].
    exists (group_id sid), m. split; [done|]. split.
    + by rewrite (build_group_dict_lookup _ _ _ Hm).
    + by apply (proj2 (Hmem _ _ Hm)).
Qed.

(** *** The values of a row *)

Lemma dict_append_lookup (d : gmap str (list str)) (k v k' : str) :
  dict_append d k v !! k' =
    if decide (k = k') then Some (default [] (d !! k) ++ [v]) else d !! k'.
Proof.
  unfold dict_append. rewrite lookup_insert.
  destruct (decide (k = k')) as [->|Hne].
  - case_decide as Hin; [done|]. by rewrite lookup_insert_eq, (not_elem_of_dom_1 _ _ Hin).
  - case_decide; [done|]. by rewrite lookup_insert_ne.
Qed.

Lemma entry_default (l : list str) : default [] (entry l) = l.
Proof. by destruct l. Qed.

Lemma entry_snoc (l : list str) (x : str) : entry (l ++ [x]) = Some (l ++ [x]).
Proof. by destruct l. Qed.

Section Row.
Variables (r : row) (pass : list str).

Lemma taken_S (col : list str) s k :
  taken r pass col s (S k) = taken r pass col s k ++ option_list (pick r pass col s k).
Proof.
  unfold taken. rewrite seq_S, omap_app. simpl.
  by destruct (pick r pass col s k).
Qed.

Lemma values_step_skip v idx name :
  names r !! idx = Some name → sample_id name ∉ pass →
  values_step r pass v idx = Ok v.
Proof.
  intros Hn Hp. unfold values_step, index. rewrite Hn. simpl.
  by rewrite decide_False.
Qed.

Lemma values_step_take v idx name :
  names r !! idx = Some name → sample_id name ∈ pass →
  match values_step r pass v idx with
  | Ok v' =>
      ∃ fc qval pval start end_,
        fcs r !! idx = Some fc ∧ qvals r !! idx = Some qval
        ∧ pvals r !! idx = Some pval ∧ starts r !! idx = Some start
        ∧ ends r !! idx = Some end_
        ∧ v' = {| fc_dict := dict_append (fc_dict v) (sample_id name) (str_float fc);
                  qval_dict := dict_append (qval_dict v) (sample_id name) (str_float qval);
                  pval_dict := dict_append (pval_dict v) (sample_id name) (str_float pval);
                  start_dict := dict_append (start_dict v) (sample_id name) (str_int start);
                  end_dict := dict_append (end_dict v) (sample_id name) (str_int end_) |}
  | Raise e => e = IndexError ∧ ¬ complete r idx
  end.
Proof.
  intros Hn Hp. unfold values_step, index, complete. rewrite Hn. simpl.
  rewrite decide_True by done.
  destruct (fcs r !! idx) as [fc|] eqn:E1; simpl;
    [|apply lookup_ge_None in E1; split; [done|lia]].
  destruct (qvals r !! idx) as [qval|] eqn:E2; simpl;
    [|apply lookup_ge_None in E2; split; [done|lia]].
  destruct (pvals r !! idx) as [pval|] eqn:E3; simpl;
    [|apply lookup_ge_None in E3; split; [done|lia]].
  destruct (starts r !! idx) as [start|] eqn:E4; simpl;
    [|apply lookup_ge_None in E4; split; [done|lia]].
  destruct (ends r !! idx) as [end_|] eqn:E5; simpl;
    [|apply lookup_ge_None in E5; split; [done|lia]].
  by exists fc, qval, pval, start, end_.
Qed.

Lemma values_step_complete v idx name :
  names r !! idx = Some name → sample_id name ∈ pass → complete r idx →
  ∃ v', values_step r pass v idx = Ok v'.
Proof.
  intros Hn Hp (H1 & H2 & H3 & H4 & H5).
  apply lookup_lt_is_Some_2 in H1 as [? E1], H2 as [? E2], H3 as [? E3],
    H4 as [? E4], H5 as [? E5].
  unfold values_step, index. rewrite Hn. simpl. rewrite decide_True by done.
  rewrite E1; simpl. rewrite E2; simpl. rewrite E3; simpl.
  rewrite E4; simpl. rewrite E5; simpl. eauto.
Qed.

(** The loop over the sources ends with an exception exactly when a source
    that passes lacks a value. *)
Lemma for_each_values_raise v a n e :
  (a + n ≤ length (names r))%nat →
  for_each (values_step r pass) v (seq a n) = Raise e →
  e = IndexError ∧ ∃ idx, (a ≤ idx < a + n)%nat ∧ eligible r pass idx ∧ ¬ complete r idx.
Proof.
  revert v a. induction n as [|n IH]; intros v a Hlen; simpl; [done|].
  destruct (lookup_lt_is_Some_2 (names r) a) as [name Hn]; [lia|].
  destruct (decide (sample_id name ∈ pass)) as [Hp|Hp].
  - pose proof (values_step_take v a name Hn Hp) as Hstep.
    destruct (values_step r pass v a) as [v'|e']; simpl.
    + intros Hr. destruct (IH v' (S a)) as (-> & idx & ? & ? & ?); [lia|done|].
      split; [done|]. exists idx. split; [lia|done].
    + intros [= ->]. destruct Hstep as [-> Hc]. split; [done|].
      exists a. split; [lia|]. split; [by exists name|done].
  - rewrite (values_step_skip v a name Hn Hp). simpl.
    intros Hr. destruct (IH v (S a)) as (-> & idx & ? & ? & ?); [lia|done|].
    split; [done|]. exists idx. split; [lia|done].
Qed.

Lemma for_each_values_ok v a n :
  (a + n ≤ length (names r))%nat →
  (∀ idx, (a ≤ idx < a + n)%nat → eligible r pass idx → complete r idx) →
  ∃ v', for_each (values_step r pass) v (seq a n) = Ok v'.
Proof.
  revert v a. induction n as [|n IH]; intros v a Hlen Hc; simpl; [by eauto|].
  destruct (lookup_lt_is_Some_2 (names r) a) as [name Hn]; [lia|].
  destruct (decide (sample_id name ∈ pass)) as [Hp|Hp].
  - destruct (values_step_complete v a name Hn Hp) as [v' ->].
    { apply Hc; [lia|]. by exists name. }
    simpl. apply IH; [lia|]. intros idx ?. apply Hc. lia.
  - rewrite (values_step_skip v a name Hn Hp). simpl.
    apply IH; [lia|]. intros idx ?. apply Hc. lia.
Qed.

(** One of the five dictionaries, with the column it is filled from. *)
Section Column.
Variables (π : values → gmap str (list str)) (col : list str).
Hypothesis π_step : ∀ v idx name v',
  names r !! idx = Some name → values_step r pass v idx = Ok v' →
  if decide (sample_id name ∈ pass)
  then ∃ x, col !! idx = Some x ∧ π v' = dict_append (π v) (sample_id name) x
  else π v' = π v.

Lemma for_each_values_column v a n v' :
  (a + n ≤ length (names r))%nat →
  for_each (values_step r pass) v (seq a n) = Ok v' →
  (∀ s, π v !! s = entry (taken r pass col s a)) →
  ∀ s, π v' !! s = entry (taken r pass col s (a + n)).
Proof.
  revert v a. induction n as [|n IH]; intros v a Hlen; simpl.
  - intros [= ->] Hv s. by rewrite Nat.add_0_r.
  - destruct (lookup_lt_is_Some_2 (names r) a) as [name Hn]; [lia|].
    destruct (values_step r pass v a) as [v1|] eqn:E; simpl; [|done].
    intros Hr Hv s. replace (a + S n)%nat with (S a + n)%nat by lia.
    apply (IH v1 (S a)); [lia|done|]. clear s. intros s.
    pose proof (π_step v a name v1 Hn E) as Hπ. rewrite taken_S.
    unfold pick. rewrite Hn. simpl.
    destruct (decide (sample_id name ∈ pass)) as [Hp|Hp].
    + destruct Hπ as (x & Hx & ->). rewrite Hx. simpl.
      rewrite dict_append_lookup, Hv.
      destruct (decide (sample_id name = s)) as [Heq|Hne].
      * rewrite decide_True by (by rewrite <- Heq). simpl. rewrite Heq.
        by rewrite entry_default, entry_snoc.
      * rewrite decide_False by naive_solver.
        destruct (col !! a); simpl; by rewrite app_nil_r.
    + rewrite Hπ, Hv. destruct (col !! a); simpl.
      * rewrite decide_False; [by rewrite app_nil_r|]. intros [<- ?]. done.
      * by rewrite app_nil_r.
Qed.

End Column.

Lemma for_each_values_complete v a n v' :
  (a + n ≤ length (names r))%nat →
  for_each (values_step r pass) v (seq a n) = Ok v' →
  ∀ idx, (a ≤ idx < a + n)%nat → eligible r pass idx → complete r idx.
Proof.
  revert v a. induction n as [|n IH]; intros v a Hlen; simpl; [intros; lia|].
  destruct (values_step r pass v a) as [v1|] eqn:E; simpl; [|done].
  intros Hr idx Hidx Hel. destruct (decide (idx = a)) as [->|Hne].
  - destruct Hel as (name & Hn & Hp).
    pose proof (values_step_take v a name Hn Hp) as Hstep. rewrite E in Hstep.
    destruct Hstep as (? & ? & ? & ? & ? & H1 & H2 & H3 & H4 & H5 & _).
    apply lookup_lt_Some in H1, H2, H3, H4, H5. by repeat split.
  - apply (IH v1 (S a)); [lia|done|lia|done].
Qed.

Lemma taken_elem (col : list str) s k x : x ∈ taken r pass col s k → x ∈ col.
Proof.
  unfold taken. rewrite list_elem_of_omap. intros (idx & _ & Hpick).
  unfold pick in Hpick. destruct (names r !! idx); simpl in Hpick; [|done].
  destruct (col !! idx) as [y|] eqn:E; simpl in Hpick; [|done].
  case_decide; [|done]. injection Hpick as ->. by eapply list_elem_of_lookup_2.
Qed.

Lemma taken_nonempty (col : list str) s k :
  (∀ idx, (idx < k)%nat → eligible r pass idx → (idx < length col)%nat) →
  taken r pass col s k ≠ [] ↔
  s ∈ pass ∧ ∃ idx name, (idx < k)%nat ∧ names r !! idx = Some name
                          ∧ sample_id name = s.
Proof.
  intros Hcol. split.
  - intros Hne. destruct (taken r pass col s k) as [|x l] eqn:E; [done|].
    assert (x ∈ taken r pass col s k) as Hx by (rewrite E; by left).
    unfold taken in Hx. apply list_elem_of_omap in Hx as (idx & Hidx & Hpick).
    apply elem_of_seq in Hidx. unfold pick in Hpick.
    destruct (names r !! idx) as [name|] eqn:Hn; simpl in Hpick; [|done].
    destruct (col !! idx); simpl in Hpick; [|done].
    case_decide as Hd; [|done]. destruct Hd as [<- ?].
    split; [done|]. exists idx, name. split; [lia|done].
  - intros (Hp & idx & name & Hidx & Hn & <-) Hnil.
    destruct (lookup_lt_is_Some_2 col idx) as [x Hx].
    { apply Hcol; [done|]. by exists name. }
    assert (x ∈ taken r pass col (sample_id name) k) as Hin; [|by rewrite Hnil in Hin; apply elem_of_nil in Hin].
    unfold taken. apply list_elem_of_omap. exists idx. split.
    + apply elem_of_seq. lia.
    + unfold pick. rewrite Hn, Hx. simpl. by rewrite decide_True.
Qed.

End Row.

Local Ltac column_step :=
  let Hn := fresh "Hn" in
  let E := fresh "E" in
  let Hp := fresh "Hp" in
  let Hstep := fresh "Hstep" in
  let H1 := fresh "H1" in let H2 := fresh "H2" in let H3 := fresh "H3" in
  let H4 := fresh "H4" in let H5 := fresh "H5" in
  let v0 := fresh "v" in
  intros v0 ? ? ? Hn E; case_decide as Hp;
  [ pose proof (values_step_take _ _ v0 _ _ Hn Hp) as Hstep;
    rewrite E in Hstep;
    destruct Hstep as (? & ? & ? & ? & ? & H1 & H2 & H3 & H4 & H5 & ->);
    eexists; split;
    [rewrite list_lookup_fmap; first [by rewrite H1|by rewrite H2|by rewrite H3
                                     |by rewrite H4|by rewrite H5]|done]
  | rewrite (values_step_skip _ _ v0 _ _ Hn Hp) in E; by injection E as <- ].

Lemma collect_values_filled (r : row) (pass : list str) (v : values) :
  collect_values r pass = Ok v →
  (∀ idx, eligible r pass idx → complete r idx) ∧ columns_filled r pass v.
Proof.
  unfold collect_values. intros Hv. split.
  - intros idx Hel.
    apply (for_each_values_complete r pass no_values 0 (length (names r)) v);
      [done|done| |done].
    destruct Hel as (name & Hn%lookup_lt_Some & _). lia.
  - intros s. repeat split.
    + apply (for_each_values_column r pass fc_dict _) with (v := no_values) (a := 0%nat);
        [column_step|done|done|done].
    + apply (for_each_values_column r pass qval_dict _) with (v := no_values) (a := 0%nat);
        [column_step|done|done|done].
    + apply (for_each_values_column r pass pval_dict _) with (v := no_values) (a := 0%nat);
        [column_step|done|done|done].
    + apply (for_each_values_column r pass start_dict _) with (v := no_values) (a := 0%nat);
        [column_step|done|done|done].
    + apply (for_each_values_column r pass end_dict _) with (v := no_values) (a := 0%nat);
        [column_step|done|done|done].
Qed.

Lemma collect_values_raise (r : row) (pass : list str) (e : exn) :
  collect_values r pass = Raise e →
  e = IndexError ∧ ∃ idx, eligible r pass idx ∧ ¬ complete r idx.
Proof.
  intros He. apply for_each_values_raise in He as (-> & idx & _ & ? & ?); [|done].
  eauto.
Qed.

Lemma collect_values_ok (r : row) (pass : list str) :
  (∀ idx, eligible r pass idx → complete r idx) →
  ∃ v, collect_values r pass = Ok v.
Proof. intros Hc. apply for_each_values_ok; [done|]. intros idx _. apply Hc. Qed.

(** *** The output of a row *)

Lemma elem_of_keys {V} (d : gmap str V) (k : str) :
  k ∈ keys d ↔ is_Some (d !! k).
Proof.
  unfold keys. rewrite list_elem_of_fmap. split.
  - intros ([k' x] & -> & Hin%elem_of_map_to_list). by exists x.
  - intros [x Hx]. exists (k, x). by rewrite elem_of_map_to_list.
Qed.

Lemma NoDup_keys {V} (d : gmap str V) : NoDup (keys d).
Proof. apply NoDup_fst_map_to_list. Qed.

Lemma entry_is_Some (l : list str) : is_Some (entry l) ↔ l ≠ [].
Proof. destruct l; simpl; [|by split]. split; [by intros [? [=]]|done]. Qed.

Lemma taken_is_Some (r : row) (pass col : list str) (s : str) :
  (∀ idx, eligible r pass idx → (idx < length col)%nat) →
  is_Some (entry (taken r pass col s (length (names r)))) ↔ contributes r pass s.
Proof.
  intros Hcol. rewrite entry_is_Some, taken_nonempty by auto.
  unfold contributes. rewrite list_elem_of_fmap. split.
  - intros (? & idx & name & _ & Hn & <-). split; [done|].
    exists name. split; [done|]. by eapply list_elem_of_lookup_2.
  - intros (? & name & -> & (idx & Hn)%list_elem_of_lookup_1). split; [done|].
    exists idx, name. split; [by eapply lookup_lt_Some|done].
Qed.

Lemma filled_is_Some (r : row) (pass : list str) (v : values) :
  (∀ idx, eligible r pass idx → complete r idx) → columns_filled r pass v →
  ∀ s, (is_Some (fc_dict v !! s) ↔ contributes r pass s)
     ∧ (is_Some (qval_dict v !! s) ↔ contributes r pass s)
     ∧ (is_Some (pval_dict v !! s) ↔ contributes r pass s)
     ∧ (is_Some (start_dict v !! s) ↔ contributes r pass s)
     ∧ (is_Some (end_dict v !! s) ↔ contributes r pass s).
Proof.
  intros Hc Hv s. destruct (Hv s) as (-> & -> & -> & -> & ->).
  split_and!; apply taken_is_Some; intros idx Hel;
    destruct (Hc idx Hel) as (? & ? & ? & ? & ?); by rewrite length_fmap.
Qed.

Lemma value_cell_ok (d : gmap str (list str)) (samples : list str) (x y : str) :
  value_cell d samples x = Ok y ↔
  (((x ∉ samples) ∧ y = lit "NA")
   ∨ (x ∈ samples ∧ ∃ l, d !! x = Some l ∧ y = py_join (lit ";") l)).
Proof.
  unfold value_cell, getitem. destruct (decide (x ∈ samples)).
  - destruct (d !! x) as [l|]; simpl; naive_solver.
  - unfold mret, result_ret. naive_solver.
Qed.

Lemma row_output_inv (snl : list str) (total : Z) (r : row) (v : values)
    (out : option (list str * list str)) :
  row_output snl total r v = Ok out →
  let samples := py_sorted (keys (fc_dict v)) in
  (samples = [] ∧ out = None)
  ∨ (samples ≠ [] ∧
     ∃ fc_list qval_list pval_list start_list end_list,
       out = Some (fields_of snl total r samples fc_list qval_list pval_list
                     start_list end_list, samples)
       ∧ mapM (value_cell (fc_dict v) samples) snl = Ok fc_list
       ∧ mapM (value_cell (qval_dict v) samples) snl = Ok qval_list
       ∧ mapM (value_cell (pval_dict v) samples) snl = Ok pval_list
       ∧ mapM (value_cell (start_dict v) samples) snl = Ok start_list
       ∧ mapM (value_cell (end_dict v) samples) snl = Ok end_list).
Proof.
  unfold row_output. simpl. case_decide as Hs.
  - intros [= <-]. by left.
  - intros (fc_list & ? & (qval_list & ? & (pval_list & ? & (start_list & ?
      & (end_list & ? & [= <-])%bind_ok)%bind_ok)%bind_ok)%bind_ok)%bind_ok.
    right. split; [done|].
    exists fc_list, qval_list, pval_list, start_list, end_list.
    by rewrite py_sorted_idem.
Qed.

Lemma row_output_total (snl : list str) (total : Z) (r : row) (v : values) :
  (∀ s, is_Some (fc_dict v !! s) →
        is_Some (qval_dict v !! s) ∧ is_Some (pval_dict v !! s)
        ∧ is_Some (start_dict v !! s) ∧ is_Some (end_dict v !! s)) →
  ∃ out, row_output snl total r v = Ok out.
Proof.
  intros Hdom. unfold row_output. case_decide; [by eauto|].
  assert (Hcell : ∀ d : gmap str (list str),
            (∀ s, is_Some (fc_dict v !! s) → is_Some (d !! s)) →
            ∃ k, mapM (value_cell d (py_sorted (keys (fc_dict v)))) snl = Ok k).
  { intros d Hd. apply mapM_total. intros x _.
    unfold value_cell, getitem. case_decide as Hx; [|by eauto].
    apply py_sorted_elem, elem_of_keys, Hd in Hx as [l ->]. simpl. eauto. }
  destruct (Hcell (fc_dict v)) as [? ->]; [done|].
  destruct (Hcell (qval_dict v)) as [? ->]; [intros; by apply Hdom|].
  destruct (Hcell (pval_dict v)) as [? ->]; [intros; by apply Hdom|].
  destruct (Hcell (start_dict v)) as [? ->]; [intros; by apply Hdom|].
  destruct (Hcell (end_dict v)) as [? ->]; [intros; by apply Hdom|].
  simpl. eauto.
Qed.

(** *** The body of the loop *)

Lemma parse_row_fields line (r : row) :
  parse_row line = Ok r →
  line_fields line !! 0%nat = Some (chrom_id r)
  ∧ line_names line = Ok (names r).
Proof.
  unfold parse_row, line_names.
  intros (c & Hc & (? & _ & (? & _ & (? & _ & (? & _ & (ns & Hns & (? & _ & (? & _
    & (? & _ & [= <-])%bind_ok)%bind_ok)%bind_ok)%bind_ok)%bind_ok)%bind_ok)%bind_ok
    )%bind_ok)%bind_ok.
  simpl. split.
  - unfold index in Hc. by destruct (line_fields line !! 0%nat); simplify_eq.
  - apply fmap_ok in Hns as (f & -> & ->). done.
Qed.

Lemma line_output_inv snl (mr total : Z) line out :
  line_output snl mr total line = Ok out →
  ∃ r v, parse_row line = Ok r ∧ collect_values r (passing mr r) = Ok v
         ∧ row_output snl total r v = Ok out.
Proof.
  unfold line_output. intros (r & ? & (v & ? & ?)%bind_ok)%bind_ok. eauto.
Qed.

Lemma line_output_raise snl (mr total : Z) line (r : row) :
  parse_row line = Ok r →
  (∃ idx, eligible r (passing mr r) idx ∧ ¬ complete r idx) →
  line_output snl mr total line = Raise IndexError.
Proof.
  intros Hr (idx & Hel & Hc). unfold line_output. rewrite Hr. simpl.
  fold (passing mr r).
  destruct (collect_values r (passing mr r)) as [v|e] eqn:E; simpl.
  - apply collect_values_filled in E as [Hall _]. by destruct Hc; apply Hall.
  - by apply collect_values_raise in E as [-> _].
Qed.

Lemma line_output_total snl (mr total : Z) line (r : row) :
  parse_row line = Ok r →
  (∀ idx, eligible r (passing mr r) idx → complete r idx) →
  ∃ out, line_output snl mr total line = Ok out.
Proof.
  intros Hr Hc. unfold line_output. rewrite Hr. simpl. fold (passing mr r).
  destruct (collect_values_ok _ _ Hc) as [v Hv]. rewrite Hv. simpl.
  apply collect_values_filled in Hv as [_ Hv].
  apply row_output_total. intros s Hs.
  destruct (filled_is_Some _ _ _ Hc Hv s) as (H1 & H2 & H3 & H4 & H5).
  apply H1 in Hs. by rewrite H2, H3, H4, H5.
Qed.

Lemma taken_printed (r : row) (pass col : list str) s k :
  Forall printed col → Forall printed (taken r pass col s k).
Proof.
  rewrite !Forall_forall. intros Hcol x Hx. by eapply Hcol, taken_elem.
Qed.

Lemma mapM_value_cells (d : gmap str (list str)) (samples snl cells : list str) :
  (∀ s l, d !! s = Some l → Forall printed l) →
  mapM (value_cell d samples) snl = Ok cells → value_cells snl cells.
Proof.
  intros Hd Hm%mapM_ok. split; [symmetry; by eapply Forall2_length|].
  apply Forall_forall. intros y Hy.
  apply list_elem_of_lookup_1 in Hy as [i Hi].
  destruct (Forall2_lookup_r _ _ _ _ _ Hm Hi) as (x & _ & Hx).
  apply value_cell_ok in Hx as [[_ ->]|(_ & l & Hl & ->)]; [by left|].
  right. exists l. split; [done|]. by eapply Hd.
Qed.

Lemma line_output_some snl (mr total : Z) line olist tsamples :
  line_output snl mr total line = Ok (Some (olist, tsamples)) →
  emitted snl mr total line olist tsamples.
Proof.
  intros (r & v & Hr & Hv & Hout)%line_output_inv.
  apply collect_values_filled in Hv as [Hc Hv].
  apply row_output_inv in Hout as [[_ [=]]|(Hne & fc & qval & pval & st & en
    & [= -> ->] & H1 & H2 & H3 & H4 & H5)].
  exists r, fc, qval, pval, st, en. split_and!; try done.
  - apply py_sorted_strict, NoDup_keys.
  - intros s. rewrite py_sorted_elem, elem_of_keys.
    apply (filled_is_Some _ _ _ Hc Hv s).
  - assert (Hcells : ∀ d col cells,
              (∀ s, d !! s = entry (taken r (passing mr r) col s (length (names r)))) →
              Forall printed col →
              mapM (value_cell d (py_sorted (keys (fc_dict v)))) snl = Ok cells →
              value_cells snl cells).
    { intros d col cells Hd Hcol. apply mapM_value_cells. intros s l.
      rewrite Hd. destruct (taken _ _ _ _ _) as [|x t] eqn:Et; [done|].
      intros [= <-]. rewrite <- Et. by apply taken_printed. }
    assert (Hf : ∀ (f : pyfloat → str) (l : list pyfloat),
              (∀ x, printed (f x)) → Forall printed (f <$> l)).
    { intros f l Hf. apply Forall_fmap, Forall_forall. intros x _. apply Hf. }
    assert (Hz : ∀ l : list Z, Forall printed (str_int <$> l)).
    { intros l. apply Forall_fmap, Forall_forall. intros x _. right. by eexists. }
    assert (Hfl : ∀ x : pyfloat, printed (str_float x)) by (left; by eexists).
    repeat apply Forall_cons_2; [..|apply Forall_nil_2].
    + apply (Hcells (fc_dict v) (str_float <$> fcs r));
        [intros s; apply (Hv s)|by apply Hf|done].
    + apply (Hcells (qval_dict v) (str_float <$> qvals r));
        [intros s; apply (Hv s)|by apply Hf|done].
    + apply (Hcells (pval_dict v) (str_float <$> pvals r));
        [intros s; apply (Hv s)|by apply Hf|done].
    + apply (Hcells (start_dict v) (str_int <$> starts r));
        [intros s; apply (Hv s)|by apply Hz|done].
    + apply (Hcells (end_dict v) (str_int <$> ends r));
        [intros s; apply (Hv s)|by apply Hz|done].
Qed.

Lemma line_output_none snl (mr total : Z) line :
  line_output snl mr total line = Ok None →
  ∃ r, parse_row line = Ok r ∧ ∀ s, ¬ contributes r (passing mr r) s.
Proof.
  intros (r & v & Hr & Hv & Hout)%line_output_inv.
  apply collect_values_filled in Hv as [Hc Hv].
  apply row_output_inv in Hout as [[Hnil _]|(_ & ? & ? & ? & ? & ? & [=] & _)].
  exists r. split; [done|]. intros s Hs.
  apply (proj1 (filled_is_Some _ _ _ Hc Hv s)), elem_of_keys in Hs.
  apply (proj1 (py_sorted_nil _)) in Hnil. rewrite Hnil in Hs.
  by apply elem_of_nil in Hs.
Qed.

(** *** Fields without a tab *)

Lemma digits_only (d : Decimal.uint) (c : ascii) :
  c ∈ list_ascii_of_string (NilEmpty.string_of_uint d) → c ∈ lit "0123456789".
Proof.
  induction d as [|d IH|d IH|d IH|d IH|d IH|d IH|d IH|d IH|d IH|d IH];
    simpl; [by intros []%elem_of_nil|..];
    (intros [->|?]%elem_of_cons; [apply (bool_decide_unpack _); by vm_compute|auto]).
Qed.

Lemma string_of_uint_chars (d : Decimal.uint) (c : ascii) :
  c ∈ list_ascii_of_string (NilZero.string_of_uint d) → c ∈ lit "0123456789".
Proof.
  destruct d; try apply digits_only. simpl.
  intros ->%list_elem_of_singleton. apply (bool_decide_unpack _). by vm_compute.
Qed.

Lemma str_int_chars (z : Z) (c : ascii) : c ∈ str_int z → c ∈ lit "-0123456789".
Proof.
  unfold str_int. destruct (Z.to_int z) as [d|d]; simpl.
  - intros Hc%string_of_uint_chars. by right.
  - intros [->|Hc%string_of_uint_chars]%elem_of_cons; [by left|by right].
Qed.

Lemma str_int_tab_free (z : Z) : tab ∉ str_int z.
Proof.
  intros Hc%str_int_chars. revert Hc. apply (bool_decide_unpack _). by vm_compute.
Qed.

Lemma sample_id_chars name (c : ascii) : c ∈ sample_id name → c ∈ name.
Proof.
  rewrite sample_id_before_first. by intros ?%before_first_chars%before_first_chars.
Qed.

Lemma line_fields_tab_free line field : field ∈ line_fields line → tab ∉ field.
Proof. apply py_split_pieces. Qed.

Lemma source_tab_free line name : source_of line name → tab ∉ name.
Proof.
  intros (field & Hf%list_elem_of_lookup_2%line_fields_tab_free & Hn) Hc.
  by eapply Hf, py_split_chars.
Qed.

Lemma sample_tab_free lines (all : gset str) s :
  collect_sample_names lines = Ok all → s ∈ all → tab ∉ s.
Proof.
  intros Hall (line & name & _ & Hsrc & ->)%(collect_sample_names_elem _ _ _ Hall) Hc.
  by eapply source_tab_free, sample_id_chars.
Qed.

Lemma join_tab_free (sep : ascii) (l : list str) :
  sep ≠ tab → Forall (λ t, tab ∉ t) l → tab ∉ py_join [sep] l.
Proof.
  intros Hsep Hl [?|(t & Ht & Hc)]%py_join_chars; [done|].
  rewrite Forall_forall in Hl. by eapply Hl.
Qed.

(** *** The fields of a written line *)

Lemma bool_cell_true (samples : list str) (x : str) :
  bool_cell samples x = lit "TRUE" ↔ x ∈ samples.
Proof. unfold bool_cell. by case_decide. Qed.

Lemma bool_cells_count (samples snl : list str) :
  NoDup snl → NoDup samples → (∀ s, s ∈ samples → s ∈ snl) →
  count_true (bool_cell samples <$> snl) = length samples.
Proof.
  intros Hsnl Hs Hsub. unfold count_true.
  assert (length (filter (λ c, c = lit "TRUE") (bool_cell samples <$> snl))
          = length (filter (λ x, x ∈ samples) snl)) as ->.
  { clear. induction snl as [|x snl IH]; [done|]. rewrite fmap_cons.
    rewrite !filter_cons. destruct (decide (x ∈ samples)) as [Hx|Hx].
    - rewrite decide_True by (by apply bool_cell_true). cbn [length]. by rewrite IH.
    - rewrite decide_False by (by rewrite bool_cell_true). done. }
  apply Permutation_length, NoDup_Permutation; [by apply NoDup_filter|done|].
  intros s. rewrite list_elem_of_filter. naive_solver.
Qed.

Lemma fields_of_length snl (total : Z) (r : row) samples fc qval pval st en :
  Forall (value_cells snl) [fc; qval; pval; st; en] →
  length (fields_of snl total r samples fc qval pval st en)
  = (6 + 6 * length snl)%nat.
Proof.
  intros Hc. apply Forall_cons in Hc as [[E1 _] Hc].
  apply Forall_cons in Hc as [[E2 _] Hc]. apply Forall_cons in Hc as [[E3 _] Hc].
  apply Forall_cons in Hc as [[E4 _] Hc]. apply Forall_cons in Hc as [[E5 _] Hc].
  unfold fields_of. rewrite !length_app, length_fmap. simpl. lia.
Qed.

Lemma fields_of_bools snl (total : Z) (r : row) samples fc qval pval st en :
  take (length snl) (drop 6 (fields_of snl total r samples fc qval pval st en))
  = bool_cell samples <$> snl.
Proof.
  unfold fields_of. rewrite drop_app_length' by done.
  rewrite take_app_length'; [done|]. by rewrite length_fmap.
Qed.

Lemma cell_text_tab_free (y : str) :
  (∀ f : pyfloat, tab ∉ str_float f) → cell_text y → tab ∉ y.
Proof.
  intros Hfl [->|(l & -> & Hl)].
  - apply (bool_decide_unpack _). by vm_compute.
  - apply (join_tab_free ";"%char); [done|].
    eapply Forall_impl; [done|]. intros x [[f ->]|[z ->]]; [done|].
    apply str_int_tab_free.
Qed.

Lemma app_tab_free (a b : str) : tab ∉ a → tab ∉ b → tab ∉ a ++ b.
Proof. rewrite elem_of_app. naive_solver. Qed.

Lemma fields_of_tab_free snl (total : Z) (r : row) samples fc qval pval st en :
  (∀ f : pyfloat, tab ∉ str_float f) → tab ∉ chrom_id r →
  Forall (value_cells snl) [fc; qval; pval; st; en] →
  Forall (λ t, tab ∉ t) (fields_of snl total r samples fc qval pval st en).
Proof.
  intros Hfl Hchrom Hc.
  assert (Hcells : ∀ cells, value_cells snl cells → Forall (λ t, tab ∉ t) cells).
  { intros cells [_ Hcells]. eapply Forall_impl; [done|].
    intros y. by apply cell_text_tab_free. }
  apply Forall_cons in Hc as [?%Hcells Hc]. apply Forall_cons in Hc as [?%Hcells Hc].
  apply Forall_cons in Hc as [?%Hcells Hc]. apply Forall_cons in Hc as [?%Hcells Hc].
  apply Forall_cons in Hc as [?%Hcells Hc].
  unfold fields_of. repeat apply Forall_app_2; try done.
  - repeat apply Forall_cons_2; try apply str_int_tab_free; [done| |done].
    apply app_tab_free; [|apply str_int_tab_free].
    apply (bool_decide_unpack _). by vm_compute.
  - apply Forall_fmap, Forall_forall. intros x _. unfold bool_cell. simpl.
    destruct (decide (x ∈ samples)); apply (bool_decide_unpack _); by vm_compute.
Qed.

Lemma ofields_length snl : length (ofields snl) = (6 + 6 * length snl)%nat.
Proof.
  unfold ofields, suffixed. rewrite !length_app, !length_fmap. simpl. lia.
Qed.

Lemma ofields_tab_free snl :
  Forall (λ t, tab ∉ t) snl → Forall (λ t, tab ∉ t) (ofields snl).
Proof.
  intros Hsnl.
  assert (Hsfx : ∀ sfx, tab ∉ lit sfx → Forall (λ t, tab ∉ t) (suffixed sfx snl)).
  { intros sfx Hsfx. apply Forall_fmap. eapply Forall_impl; [done|].
    intros x Hx. simpl. by apply app_tab_free. }
  unfold ofields.
  repeat apply Forall_app_2; try apply Hsfx;
    apply (bool_decide_unpack _); by vm_compute.
Qed.

Lemma written_fields_intro (fields : list str) :
  fields ≠ [] →
  ((∀ f : pyfloat, tab ∉ str_float f) → Forall (λ t, tab ∉ t) fields) →
  written_fields (out_line fields) fields.
Proof. intros Hne Hf. split; [done|]. intros Hfl. apply py_split_join; auto. Qed.

(** *** The table of combinations *)

Lemma foldr_add_perm (l k : list Z) : l ≡ₚ k → foldr Z.add 0 l = foldr Z.add 0 k.
Proof. induction 1; simpl; lia. Qed.

Lemma sum_counts_insert (d : gmap (list str) Z) (key : list str) (n : Z) :
  sum_counts (<[key := n]> d) = sum_counts d - default 0 (d !! key) + n.
Proof.
  unfold sum_counts. rewrite <- insert_delete_eq.
  rewrite (foldr_add_perm _ (n :: (map_to_list (delete key d)).*2)).
  2:{ rewrite map_to_list_insert by apply lookup_delete_eq. done. }
  destruct (d !! key) as [m|] eqn:E; simpl.
  - rewrite (foldr_add_perm (map_to_list d).*2
               (m :: (map_to_list (delete key d)).*2)); [simpl; lia|].
    rewrite <- (insert_delete_id d key m E) at 1.
    rewrite map_to_list_insert by apply lookup_delete_eq. done.
  - rewrite delete_id by done. lia.
Qed.

Lemma sum_counts_count_combination (d : gmap (list str) Z) (ts : list str) :
  sum_counts (count_combination d ts) = sum_counts d + 1.
Proof.
  unfold count_combination. case_decide as Hin.
  - rewrite sum_counts_insert. apply elem_of_dom in Hin as [n Hn].
    rewrite Hn. simpl. lia.
  - apply not_elem_of_dom in Hin.
    rewrite !sum_counts_insert, lookup_insert_eq, Hin. simpl. lia.
Qed.

(** *** The loop *)

Lemma expand_line_inv snl (mr : Z) (st st' : state) line :
  expand_line snl mr st line = Ok st' →
  (line_output snl mr (total_out_intervals st) line = Ok None ∧ st' = st)
  ∨ ∃ olist tsamples,
      line_output snl mr (total_out_intervals st) line = Ok (Some (olist, tsamples))
      ∧ st' = {| written := written st ++ [out_line olist];
                 comb_freq_dict := count_combination (comb_freq_dict st) tsamples;
                 total_out_intervals := total_out_intervals st + 1 |}.
Proof.
  unfold expand_line. intros ([[olist ts]|] & Hout & Hst)%bind_ok.
  - right. exists olist, ts. split; [done|]. by injection Hst as <-.
  - left. split; [done|]. by injection Hst as <-.
Qed.

Lemma expand_line_raise snl (mr : Z) (st : state) line (e : exn) :
  expand_line snl mr st line = Raise e ↔
  line_output snl mr (total_out_intervals st) line = Raise e.
Proof.
  unfold expand_line.
  destruct (line_output snl mr (total_out_intervals st) line) as [[[??]|]|];
    simpl; naive_solver.
Qed.

Lemma expand_lines_app snl (mr : Z) (st : state) (l1 l2 : list str) :
  expand_lines snl mr st (l1 ++ l2) =
    match expand_lines snl mr st l1 with
    | (st', None) => expand_lines snl mr st' l2
    | (st', Some e) => (st', Some e)
    end.
Proof.
  revert st. induction l1 as [|line l1 IH]; intros st; simpl; [done|].
  destruct (expand_line snl mr st line); [apply IH|done].
Qed.

(** A property of the state that every line preserves holds when the loop
    ends, however it ends. *)
Lemma expand_lines_invariant (P : state → Prop) snl (mr : Z) (st : state) lines :
  P st →
  (∀ st line st', line ∈ lines → P st → expand_line snl mr st line = Ok st' → P st') →
  P (expand_lines snl mr st lines).1.
Proof.
  intros Hst Hstep. revert st Hst.
  induction lines as [|line lines IH]; intros st Hst; simpl; [done|].
  destruct (expand_line snl mr st line) as [st'|e] eqn:E; [|done].
  apply IH.
  - intros ? l ? ?. apply Hstep. by right.
  - eapply Hstep; [by left|done..].
Qed.

(** *** Rows whose sequences differ in length *)

Lemma all_pass_at_one (mr : Z) (names : list str) sid :
  mr ≤ 1 → sid ∈ sample_id <$> names →
  sid ∈ pass_rep_thresh mr (build_group_dict names).
Proof.
  intros Hmr Hsid. apply passes_iff. split; [done|].
  assert (sid ∈ group_members names (group_id sid)) as Hin.
  { unfold group_members. by rewrite elem_of_remove_dups, list_elem_of_filter. }
  destruct (group_members names (group_id sid)); [by apply elem_of_nil in Hin|].
  simpl length. lia.
Qed.

Lemma lacks_value_at_one (mr : Z) (r : row) :
  mr ≤ 1 →
  lacks_value mr r ↔
  (length (fcs r) < length (names r) ∨ length (qvals r) < length (names r)
   ∨ length (pvals r) < length (names r) ∨ length (starts r) < length (names r)
   ∨ length (ends r) < length (names r))%nat.
Proof.
  intros Hmr. unfold lacks_value, complete. split.
  - intros (idx & (name & Hn%lookup_lt_Some & _) & Hc). lia.
  - intros Hshort. exists (length (names r) - 1)%nat.
    destruct (lookup_lt_is_Some_2 (names r) (length (names r) - 1)) as [name Hn];
      [lia|].
    split; [|lia]. exists name. split; [done|].
    apply all_pass_at_one; [done|]. apply list_elem_of_fmap. exists name.
    split; [done|]. by eapply list_elem_of_lookup_2.
Qed.

(** C1 (as amended): a row that parses ends the run with an IndexError
    exactly when a source whose sample passes the replicate threshold sits
    at an index that one of the starts, ends, fold-change, p-value and
    q-value sequences does not reach; nothing is written after the lines
    of the rows before it and the table of combinations is not written.
    With a threshold of at most 1 that is the case exactly when one of the
    five sequences is shorter than the names. Any other row is processed. *)
Theorem short_sequence_aborts (pre post : list str) line (r : row) (mr : Z)
    (all_sample_names : gset str) (st : state) :
  collect_sample_names (pre ++ line :: post) = Ok all_sample_names →
  expand_lines (sorted_sample_names ord all_sample_names) mr
    (initial_state (sorted_sample_names ord all_sample_names)) pre = (st, None) →
  parse_row line = Ok r →
  (lacks_value mr r →
     macs2_merged_expand ord (pre ++ line :: post) mr =
       {| primary := Some (written st); secondary := None;
          raised := Some IndexError |})
  ∧ (¬ lacks_value mr r →
     ∃ st', expand_line (sorted_sample_names ord all_sample_names) mr st line
            = Ok st')
  ∧ (mr ≤ 1 →
     lacks_value mr r ↔
     (length (fcs r) < length (names r) ∨ length (qvals r) < length (names r)
      ∨ length (pvals r) < length (names r)
      ∨ length (starts r) < length (names r)
      ∨ length (ends r) < length (names r))%nat).
Proof.
  intros Hall Hpre Hr. split; [|split].
  - intros Hlack. unfold macs2_merged_expand. rewrite Hall.
    rewrite expand_lines_app, Hpre. simpl.
    assert (expand_line (sorted_sample_names ord all_sample_names) mr st line
            = Raise IndexError) as ->; [|done].
    apply expand_line_raise. by eapply line_output_raise.
  - intros Hno.
    destruct (line_output_total (sorted_sample_names ord all_sample_names) mr
                (total_out_intervals st) line r Hr) as [out Hout].
    { intros idx Hel. destruct (decide (complete r idx)) as [|Hn]; [done|].
      destruct Hno. by exists idx. }
    unfold expand_line. rewrite Hout. simpl. destruct out as [[??]|]; eauto.
  - apply lacks_value_at_one.
Qed.

(** *** The values accumulated for a sample *)

Lemma omap_fmap_compose {A B C} (f : B → option C) (g : A → B) (l : list A) :
  omap f (g <$> l) = omap (f ∘ g) l.
Proof. induction l as [|x l IH]; csimpl; [done|]. by rewrite IH. Qed.

Lemma omap_pointwise {A B} (f g : A → option B) (l : list A) :
  (∀ x, f x = g x) → omap f l = omap g l.
Proof. intros E. induction l as [|x l IH]; csimpl; [done|]. by rewrite E, IH. Qed.

Lemma omap_pick_values_of (names pass col : list str) s :
  length col = length names →
  omap (λ idx, name ← names !! idx; x ← col !! idx;
               if decide (sample_id name = s ∧ s ∈ pass) then Some x else None)
       (seq 0 (length names))
  = if decide (s ∈ pass) then values_of names col s else [].
Proof.
  revert col. induction names as [|name names IH]; intros [|x col] Hlen;
    simplify_eq/=.
  - by case_decide.
  - rewrite <- fmap_S_seq, omap_fmap_compose.
    rewrite (omap_pointwise _ (λ idx, name ← names !! idx; x ← col !! idx;
               if decide (sample_id name = s ∧ s ∈ pass) then Some x else None))
      by done.
    rewrite (IH col) by done. unfold values_of. simpl. rewrite filter_cons. simpl.
    destruct (decide (s ∈ pass)) as [Hp|Hp].
    + destruct (decide (sample_id name = s)) as [Heq|Hne].
      * by rewrite decide_True.
      * rewrite decide_False; [done|]. by intros [? _].
    + rewrite decide_False; [done|]. by intros [_ ?].
Qed.

Lemma taken_values_of (r : row) (pass col : list str) s :
  length col = length (names r) →
  taken r pass col s (length (names r))
  = if decide (s ∈ pass) then values_of (names r) col s else [].
Proof. apply omap_pick_values_of. Qed.

Lemma values_of_nil (names col : list str) s :
  s ∉ sample_id <$> names → values_of names col s = [].
Proof.
  intros Hs. unfold values_of.
  destruct (filter _ (zip names col)) as [|[name x] l] eqn:E; [done|].
  assert ((name, x) ∈ filter (λ p, sample_id p.1 = s) (zip names col)) as Hin
    by (rewrite E; by left).
  apply list_elem_of_filter in Hin as [<- Hin]. destruct Hs.
  apply list_elem_of_fmap. exists name. split; [done|].
  by eapply elem_of_zip_l.
Qed.

(** C2: in a row whose six sequences have the same length, a sample name
    passes exactly when it occurs in the row and its group - the name
    without its last ["_"]-delimited token - has at least [mr] distinct
    names in the row; and the five dictionaries hold, for each sample of a
    group that passes, the values of its sources in source order, and
    nothing for any other sample. *)
Theorem group_threshold_selects (mr : Z) (r : row) :
  length (starts r) = length (names r) → length (ends r) = length (names r) →
  length (fcs r) = length (names r) → length (pvals r) = length (names r) →
  length (qvals r) = length (names r) →
  (∀ sid, sid ∈ passing mr r ↔
     sid ∈ sample_id <$> names r ∧ group_passes mr (names r) (group_id sid))
  ∧ ∃ v, collect_values r (passing mr r) = Ok v
    ∧ ∀ s,
        fc_dict v !! s = accumulated mr (names r) (str_float <$> fcs r) s
        ∧ qval_dict v !! s = accumulated mr (names r) (str_float <$> qvals r) s
        ∧ pval_dict v !! s = accumulated mr (names r) (str_float <$> pvals r) s
        ∧ start_dict v !! s = accumulated mr (names r) (str_int <$> starts r) s
        ∧ end_dict v !! s = accumulated mr (names r) (str_int <$> ends r) s.
Proof.
  intros L1 L2 L3 L4 L5. split; [intros sid; apply passes_iff|].
  destruct (collect_values_ok r (passing mr r)) as [v Hv].
  { intros idx (name & Hn%lookup_lt_Some & _). unfold complete. lia. }
  exists v. split; [done|]. apply collect_values_filled in Hv as [_ Hv].
  intros s. destruct (Hv s) as (-> & -> & -> & -> & ->).
  rewrite !taken_values_of by (by rewrite length_fmap).
  assert (Hpick : ∀ col,
    entry (if decide (s ∈ passing mr r) then values_of (names r) col s else [])
    = accumulated mr (names r) col s).
  { intros col. unfold accumulated.
    destruct (decide (group_passes _ _ _)) as [Hg|Hg].
    - destruct (decide (s ∈ sample_id <$> names r)) as [Hs|Hs].
      + rewrite decide_True; [done|]. by apply passes_iff.
      + rewrite values_of_nil by done. by case_decide.
    - rewrite decide_False; [done|]. by intros [_ ?]%passes_iff. }
  by rewrite !Hpick.
Qed.

(** C10: a sample name without ["_"] has the empty group; the names
    without ["_"] of a row are members of that one group of the
    dictionary, and when the row has at least [mr] distinct such names each
    of them passes. *)
Theorem underscore_free_names_pooled (mr : Z) (names : list str) sid :
  "_"%char ∉ sid →
  group_id sid = []
  ∧ (sid ∈ sample_id <$> names →
     ∃ members, build_group_dict names !! [] = Some members ∧ sid ∈ members)
  ∧ (sid ∈ sample_id <$> names →
     mr ≤ Z.of_nat (length (remove_dups
            (filter (λ s, "_"%char ∉ s) (sample_id <$> names)))) →
     sid ∈ pass_rep_thresh mr (build_group_dict names)).
Proof.
  intros Hsid. pose proof (group_id_no_underscore sid Hsid) as Hgid.
  split; [done|]. split.
  - intros Hin. destruct (build_group_dict_groups names) as [Hdom Hmem].
    destruct (Hdom sid Hin) as [members Hm]. rewrite Hgid in Hm.
    exists members. split; [done|]. by apply (Hmem _ _ Hm).
  - intros Hin Hlen. apply passes_iff. split; [done|]. rewrite Hgid.
    assert (remove_dups (filter (λ s, "_"%char ∉ s) (sample_id <$> names))
            ⊆+ group_members names []) as Hsub%submseteq_length; [|lia].
    apply NoDup_submseteq; [apply NoDup_remove_dups|].
    intros s. unfold group_members.
    rewrite !elem_of_remove_dups, !list_elem_of_filter.
    intros [Hs ?]. split; [|done]. by apply group_id_no_underscore.
Qed.

(** *** The lines of the output *)

Lemma line_names_source line (names : list str) name :
  line_names line = Ok names → name ∈ names → source_of line name.
Proof.
  unfold line_names, index, source_of.
  destruct (line_fields line !! 5%nat) as [field|]; [|done].
  intros [= <-] ?. by exists field.
Qed.

Lemma emitted_in_universe lines (all : gset str) snl (mr total : Z) line olist ts s :
  collect_sample_names lines = Ok all → line ∈ lines →
  emitted snl mr total line olist ts → s ∈ ts → s ∈ all.
Proof.
  intros Hall Hline (r & ? & ? & ? & ? & ? & Hr & _ & _ & _ & Hts & _) Hs.
  apply Hts in Hs as [_ (name & -> & Hname)%list_elem_of_fmap].
  apply (collect_sample_names_elem _ _ _ Hall). exists line, name.
  split; [done|]. split; [|done].
  apply parse_row_fields in Hr as [_ Hn]. by eapply line_names_source.
Qed.

Lemma emitted_row_line lines (all : gset str) (mr : Z) (k : nat) line olist ts :
  collect_sample_names lines = Ok all → line ∈ lines →
  emitted (sorted_sample_names ord all) mr (Z.of_nat k) line olist ts →
  row_line (sorted_sample_names ord all) k (out_line olist).
Proof.
  intros Hall Hline Hem.
  pose proof (λ s, emitted_in_universe _ _ _ _ _ _ _ _ s Hall Hline Hem) as Hsub.
  destruct Hem as (r & fc & qval & pval & st & en & Hr & -> & Hne & Hts & _ & Hc).
  exists (fields_of (sorted_sample_names ord all) (Z.of_nat k) r ts fc qval pval st en).
  split_and!.
  - apply written_fields_intro; [done|]. intros Hfl.
    apply fields_of_tab_free; [done| |done].
    apply parse_row_fields in Hr as [Hchrom%list_elem_of_lookup_2 _].
    by eapply line_fields_tab_free.
  - by apply fields_of_length.
  - done.
  - rewrite fields_of_bools, bool_cells_count; [done|..].
    + apply sorted_sample_names_NoDup.
    + clear -Hts. induction Hts as [|x l _ IH Hx]; constructor; [|done].
      intros Hin. rewrite Forall_forall in Hx. by destruct (py_lt_irrefl x); apply Hx.
    + intros s Hs. by apply sorted_sample_names_elem, Hsub.
Qed.

Lemma loop_invariant_holds lines (all : gset str) (mr : Z) :
  collect_sample_names lines = Ok all →
  loop_invariant (sorted_sample_names ord all)
    (expand_lines (sorted_sample_names ord all) mr
       (initial_state (sorted_sample_names ord all)) lines).1.
Proof.
  intros Hall. apply expand_lines_invariant.
  - exists []. by split_and!.
  - intros st line st' Hline (rows & Hw & Htot & Hrows & Hsum) Hst.
    apply expand_line_inv in Hst as [[_ ->]|(olist & ts & Hout & ->)].
    + by exists rows.
    + exists (rows ++ [out_line olist]). simpl. rewrite length_app. simpl.
      split_and!.
      * by rewrite Hw.
      * lia.
      * intros k w Hk. destruct (decide (k < length rows)%nat) as [Hlt|Hge].
        -- rewrite lookup_app_l in Hk by done. by apply Hrows.
        -- rewrite lookup_app_r in Hk by lia.
           apply list_lookup_singleton_Some in Hk as [Hk <-].
           assert (k = length rows) as -> by lia.
           eapply emitted_row_line; [done..|].
           apply line_output_some. by rewrite <- Htot.
      * rewrite sum_counts_count_combination. lia.
Qed.

Lemma run_primary lines (mr : Z) (ws : list str) :
  primary (macs2_merged_expand ord lines mr) = Some ws →
  ∃ all, collect_sample_names lines = Ok all
    ∧ ws = written (expand_lines (sorted_sample_names ord all) mr
                      (initial_state (sorted_sample_names ord all)) lines).1.
Proof.
  unfold macs2_merged_expand.
  destruct (collect_sample_names lines) as [all|]; [|done].
  destruct (expand_lines _ _ _ _) as [st [e|]] eqn:E; intros [= <-];
    exists all; by rewrite E.
Qed.

(** C6: every line of the primary output, the header and each row, has
    6 + 6 x |sample names| fields, where the sample names are the sorted
    list that the first pass collects; the fields are those that
    splitting the line at its tabs gives (no printed float holds a tab). *)
Theorem every_line_has_all_columns lines (mr : Z) (all : gset str) (ws : list str) (w : str) :
  collect_sample_names lines = Ok all →
  primary (macs2_merged_expand ord lines mr) = Some ws →
  w ∈ ws →
  ∃ fields, written_fields w fields
    ∧ length fields = (6 + 6 * length (sorted_sample_names ord all))%nat.
Proof.
  intros Hall (all' & Hall' & ->)%run_primary Hw.
  rewrite Hall in Hall'. injection Hall' as <-.
  destruct (loop_invariant_holds lines all mr Hall) as (rows & Hws & _ & Hrows & _).
  rewrite Hws in Hw. apply elem_of_cons in Hw as [->|Hw].
  - exists (ofields (sorted_sample_names ord all)). split; [|apply ofields_length].
    apply written_fields_intro; [done|]. intros _. apply ofields_tab_free.
    apply Forall_forall. intros s Hs%sorted_sample_names_elem.
    by eapply sample_tab_free.
  - apply list_elem_of_lookup_1 in Hw as [k Hk].
    destruct (Hrows k w Hk) as (fields & ? & ? & _). by exists fields.
Qed.

(** C7: in every row written, the field [num_samples] is the number of
    [TRUE] cells among the boolean columns of the row, the columns 6 to
    5 + |sample names|. *)
Theorem num_samples_counts_true lines (mr : Z) (all : gset str) (ws : list str)
    (k : nat) (w : str) :
  collect_sample_names lines = Ok all →
  primary (macs2_merged_expand ord lines mr) = Some ws →
  ws !! S k = Some w →
  ∃ fields, written_fields w fields
    ∧ fields !! 5%nat
      = Some (str_int (Z.of_nat (count_true
          (take (length (sorted_sample_names ord all)) (drop 6 fields))))).
Proof.
  intros Hall (all' & Hall' & ->)%run_primary Hw.
  rewrite Hall in Hall'. injection Hall' as <-.
  destruct (loop_invariant_holds lines all mr Hall) as (rows & Hws & _ & Hrows & _).
  rewrite Hws in Hw. simpl in Hw.
  destruct (Hrows k w Hw) as (fields & ? & _ & _ & ?). by exists fields.
Qed.

(** *** Rows that are dropped, and the numbering of the others *)

Lemma contributing_samples_elem (mr : Z) (r : row) s :
  s ∈ contributing_samples mr r ↔ contributes r (passing mr r) s.
Proof. unfold contributing_samples, contributes. by rewrite list_elem_of_filter. Qed.

Lemma contributing_samples_nil (mr : Z) (r : row) :
  contributing_samples mr r = [] ↔ ∀ s, ¬ contributes r (passing mr r) s.
Proof.
  split.
  - intros E s Hs%contributing_samples_elem. rewrite E in Hs. by apply elem_of_nil in Hs.
  - intros Hno. destruct (contributing_samples mr r) as [|s l] eqn:E; [done|].
    destruct (Hno s). apply contributing_samples_elem. rewrite E. by left.
Qed.

Lemma line_output_dropped snl (mr total : Z) line (r : row) :
  parse_row line = Ok r → contributing_samples mr r = [] →
  line_output snl mr total line = Ok None.
Proof.
  intros Hr Hnil. pose proof (proj1 (contributing_samples_nil mr r) Hnil) as Hno.
  destruct (line_output_total snl mr total line r Hr) as [[[olist ts]|] Hout];
    [|apply line_output_some in Hout|done].
  - intros idx (name & Hn & Hp). destruct (Hno (sample_id name)).
    split; [done|]. apply list_elem_of_fmap. exists name. split; [done|].
    by eapply list_elem_of_lookup_2.
  - destruct Hout as (r' & ? & ? & ? & ? & ? & Hr' & _ & Hne & _ & Hts & _).
    rewrite Hr in Hr'. injection Hr' as <-.
    destruct ts as [|s ts]; [done|]. destruct (Hno s). apply Hts. by left.
Qed.

Lemma line_output_none_drops snl (mr total : Z) line :
  line_output snl mr total line = Ok None → ¬ row_contributes mr line.
Proof.
  intros (r & Hr & Hno)%line_output_none. unfold row_contributes. rewrite Hr.
  intros Hne. by apply Hne, contributing_samples_nil.
Qed.

Lemma line_output_some_contributes snl (mr total : Z) line olist ts :
  line_output snl mr total line = Ok (Some (olist, ts)) → row_contributes mr line.
Proof.
  intros (r & ? & ? & ? & ? & ? & Hr & _ & Hne & _ & Hts & _)%line_output_some.
  unfold row_contributes. rewrite Hr. intros Hnil.
  destruct ts as [|s ts]; [done|].
  apply (proj1 (contributing_samples_nil mr r) Hnil s), Hts. by left.
Qed.

(** The rows written by the loop, in closed form. *)
Lemma expand_lines_rows snl (mr : Z) (st st' : state) lines (e : option exn) :
  expand_lines snl mr st lines = (st', e) →
  ∃ processed rest,
    lines = processed ++ rest ∧ (e = None → rest = [])
    ∧ written st' = written st
        ++ imap (λ k line, row_text snl mr (total_out_intervals st + Z.of_nat k) line)
             (filter (row_contributes mr) processed)
    ∧ ∀ k line, filter (row_contributes mr) processed !! k = Some line →
        ∃ olist ts, line_output snl mr (total_out_intervals st + Z.of_nat k) line
                    = Ok (Some (olist, ts)).
Proof.
  revert st. induction lines as [|line lines IH]; intros st; simpl.
  - intros [= <- <-]. exists [], []. split_and!; [done..| |done].
    simpl. by rewrite app_nil_r.
  - destruct (expand_line snl mr st line) as [st1|e1] eqn:E.
    + intros (processed & rest & -> & Hrest & Hw & Hk)%IH.
      exists (line :: processed), rest. split; [done|]. split; [done|].
      rewrite Hw, filter_cons.
      apply expand_line_inv in E as [[Hout ->]|(olist & ts & Hout & ->)].
      * by rewrite decide_False by (by eapply line_output_none_drops).
      * rewrite decide_True by (by eapply line_output_some_contributes).
        simpl in *. split.
        -- rewrite <- app_assoc. f_equal. unfold row_text at 2.
           rewrite Z.add_0_r, Hout. simpl. f_equal.
           apply imap_ext. intros k l _. simpl. f_equal. lia.
        -- intros [|k] l Hl; simpl in Hl.
           ++ injection Hl as <-. rewrite Z.add_0_r. by exists olist, ts.
           ++ destruct (Hk k l Hl) as (ol & t & Ho). exists ol, t.
              rewrite <- Ho. f_equal. lia.
    + intros [= <- <-]. exists [], (line :: lines). split_and!; [done..| |done].
      simpl. by rewrite app_nil_r.
Qed.

Lemma row_text_interval snl (mr : Z) (k : nat) line olist ts :
  line_output snl mr (Z.of_nat k) line = Ok (Some (olist, ts)) →
  ∃ fields, written_fields (row_text snl mr (Z.of_nat k) line) fields
    ∧ fields !! 3%nat = Some (lit "Interval_" ++ str_int (Z.of_nat k + 1)).
Proof.
  intros Hout. unfold row_text. rewrite Hout.
  apply line_output_some in Hout
    as (r & fc & qval & pval & st & en & Hr & -> & Hne & _ & _ & Hc).
  exists (fields_of snl (Z.of_nat k) r ts fc qval pval st en). split; [|done].
  apply written_fields_intro; [done|]. intros Hfl.
  apply fields_of_tab_free; [done| |done].
  apply parse_row_fields in Hr as [Hchrom%list_elem_of_lookup_2 _].
  by eapply line_fields_tab_free.
Qed.

(** C3: a row without contributing sample leaves the state of the loop
    as it was: no line is written, the table of combinations and the
    counter are untouched. The rows written after the header are those of
    the lines that contribute, in the order of the input, and the row at
    position [k] (from 0) carries the identifier [Interval_(k+1)]. *)
Theorem dropped_rows_take_no_identifier lines (mr : Z) (ws : list str) :
  primary (macs2_merged_expand ord lines mr) = Some ws →
  ∃ all processed rest,
    collect_sample_names lines = Ok all
    ∧ lines = processed ++ rest
    ∧ (raised (macs2_merged_expand ord lines mr) = None → rest = [])
    ∧ (∀ line r st, parse_row line = Ok r → contributing_samples mr r = [] →
         expand_line (sorted_sample_names ord all) mr st line = Ok st)
    ∧ ws = out_line (ofields (sorted_sample_names ord all))
           :: imap (λ k line, row_text (sorted_sample_names ord all) mr (Z.of_nat k) line)
                (filter (row_contributes mr) processed)
    ∧ ∀ k line, filter (row_contributes mr) processed !! k = Some line →
        ∃ fields,
          written_fields (row_text (sorted_sample_names ord all) mr (Z.of_nat k) line) fields
          ∧ fields !! 3%nat = Some (lit "Interval_" ++ str_int (Z.of_nat k + 1)).
Proof.
  intros Hws. destruct (run_primary _ _ _ Hws) as (all & Hall & ->).
  destruct (expand_lines (sorted_sample_names ord all) mr
              (initial_state (sorted_sample_names ord all)) lines)
    as [st e] eqn:E.
  destruct (expand_lines_rows _ _ _ _ _ _ E) as (processed & rest & Hl & Hrest & Hw & Hk).
  exists all, processed, rest. split_and!; try done.
  - unfold macs2_merged_expand. rewrite Hall, E. destruct e; [done|]. auto.
  - intros line r st0 Hr Hnil. unfold expand_line.
    by rewrite (line_output_dropped _ _ _ _ _ Hr Hnil).
  - intros k line Hline. destruct (Hk k line Hline) as (olist & ts & Hout).
    by eapply row_text_interval.
Qed.

(** *** The table of combinations *)

Lemma comb_freq_items_perm (d : gmap (list str) Z) :
  comb_freq_items d ≡ₚ (λ kv, (kv.2, kv.1)) <$> map_to_list d.
Proof.
  unfold comb_freq_items, py_sorted_reverse.
  by rewrite reverse_Permutation, py_sorted_perm, reverse_Permutation.
Qed.

Lemma comb_freq_items_sum (d : gmap (list str) Z) :
  foldr Z.add 0 (comb_freq_items d).*1 = sum_counts d.
Proof.
  unfold sum_counts. apply foldr_add_perm.
  rewrite comb_freq_items_perm, <- list_fmap_compose. done.
Qed.

(** C8: when the loop ends, the counts of the table of combinations add
    up to the number of rows written after the header; so do the counts
    of the lines of the secondary file when it is written. *)
Theorem counts_sum_to_rows lines (mr : Z) (ws : list str) :
  primary (macs2_merged_expand ord lines mr) = Some ws →
  ∃ all (st : state),
    collect_sample_names lines = Ok all
    ∧ st = (expand_lines (sorted_sample_names ord all) mr
              (initial_state (sorted_sample_names ord all)) lines).1
    ∧ ws = written st
    ∧ sum_counts (comb_freq_dict st) = Z.of_nat (length ws - 1)
    ∧ ∀ tbl, secondary (macs2_merged_expand ord lines mr) = Some tbl →
        tbl = intersect_line <$> comb_freq_items (comb_freq_dict st)
        ∧ foldr Z.add 0 (comb_freq_items (comb_freq_dict st)).*1
          = Z.of_nat (length ws - 1).
Proof.
  intros Hws. destruct (run_primary _ _ _ Hws) as (all & Hall & ->).
  eexists all, _. split; [done|]. split; [done|]. split; [done|].
  destruct (loop_invariant_holds lines all mr Hall) as (rows & Hw & _ & _ & Hsum).
  assert (sum_counts (comb_freq_dict (expand_lines (sorted_sample_names ord all) mr
            (initial_state (sorted_sample_names ord all)) lines).1)
          = Z.of_nat (length (written (expand_lines (sorted_sample_names ord all) mr
            (initial_state (sorted_sample_names ord all)) lines).1) - 1)) as Hcount.
  { rewrite Hsum, Hw. simpl. f_equal. lia. }
  split; [done|]. intros tbl. unfold macs2_merged_expand. rewrite Hall.
  destruct (expand_lines _ _ _ _) as [st [e|]]; [done|]. simpl in *.
  intros [= <-]. split; [done|]. by rewrite comb_freq_items_sum.
Qed.

End Verification.

(** The order of the (count, combination) pairs. *)
Lemma pair_lt_iff (a b : Z * list str) :
  py_lt a b ↔ a.1 < b.1 ∨ (a.1 = b.1 ∧ py_lt a.2 b.2).
Proof.
  unfold py_lt at 1. unfold py_cmp at 1, pair_ord.
  destruct (py_cmp a.1 b.1) eqn:E; unfold py_cmp, Z_ord in E.
  - apply Z.compare_eq_iff in E. unfold py_lt. split; [by right|].
    intros [?|[_ ?]]; [lia|done].
  - apply Z.compare_lt_iff in E. split; [by left|done].
  - apply Z.compare_gt_iff in E. split; [done|]. intros [?|[? _]]; lia.
Qed.

(** C4: the lines of the table are the (count, combination) pairs of the
    mapping, each exactly once, by decreasing count and, for equal counts,
    with the lexicographically larger combination first (the samples
    compared as strings); a line is the samples joined by ["&"], a tab,
    the count and a newline. *)
Theorem table_is_sorted (d : gmap (list str) Z) :
  comb_freq_items d ≡ₚ (λ kv, (kv.2, kv.1)) <$> map_to_list d
  ∧ StronglySorted
      (λ a b, b.1 < a.1 ∨ (b.1 = a.1 ∧ lexicographically_less b.2 a.2))
      (comb_freq_items d)
  ∧ intersect_line <$> comb_freq_items d
    = (λ item, py_join (lit "&") item.2 ++ [tab] ++ str_int item.1 ++ [newline])
      <$> comb_freq_items d.
Proof.
  split; [apply comb_freq_items_perm|]. split; [|done].
  unfold comb_freq_items, py_sorted_reverse.
  assert (Hnd : NoDup (reverse ((λ kv : list str * Z, (kv.2, kv.1)) <$> map_to_list d))).
  { rewrite reverse_Permutation. apply NoDup_fmap_2; [|apply NoDup_map_to_list].
    intros [??] [??] [= -> ->]. done. }
  apply py_sorted_strict, StronglySorted_Sorted, Sorted_reverse in Hnd.
  apply Sorted_StronglySorted in Hnd.
  - eapply StronglySorted_weaken; [|done]. intros a b Hab.
    apply pair_lt_iff in Hab as [?|[? ?%list_lt_lexicographic]]; auto.
  - intros a b c Hab Hbc. unfold flip in *. by eapply py_lt_trans.
Qed.



(** C9: the files written do not depend on the order in which the
    interpreter iterates the set of sample names, the one thing that
    changes between two runs on the same input: the content of both output
    files and the exception raised, if any, are the same. *)
Theorem run_is_deterministic {N : PyNum} (ord1 ord2 : SetOrder)
    (lines : list str) (min_replicates : Z) :
  macs2_merged_expand ord1 lines min_replicates =
  macs2_merged_expand ord2 lines min_replicates.
Proof.
  unfold macs2_merged_expand.
  destruct (collect_sample_names lines) as [all|e]; [|done].
  assert (sorted_sample_names ord1 all = sorted_sample_names ord2 all) as ->; [|done].
  apply py_sorted_of_perm. by rewrite !set_iter_perm.
Qed.


(** * Further properties of the script *)

(** ** The name of the secondary file *)

(** X1: the secondary file is never the primary file: its name differs from
    [outfile] whatever [outfile] is; for an [outfile] that ends in an
    extension of four characters the extension is replaced by
    [.intersect.txt], and a shorter name is replaced as a whole. *)
Theorem intersect_path_is_another_file (stem ext short : str) :
  length ext = 4%nat → (length short < 4)%nat →
  intersect_path (stem ++ ext) = stem ++ lit ".intersect.txt"
  ∧ intersect_path short = lit ".intersect.txt"
  ∧ ∀ outfile, intersect_path outfile ≠ outfile.
Proof.
  intros Hext Hshort. unfold intersect_path. split_and!.
  - rewrite length_app, Hext, Nat.add_sub. by rewrite take_app_length.
  - replace (length short - 4)%nat with 0%nat by lia. done.
  - intros outfile E. apply (f_equal length) in E.
    rewrite length_app, length_take in E. simpl in E. lia.
Qed.

(** ** Sample names *)

Lemma before_first_prefix (sep s : str) :
  ∃ rest, s = before_first sep s ++ rest.
Proof.
  induction s as [|c s [rest IH]]; simpl; [by exists []|].
  destruct (starts_with sep (c :: s)); [by exists (c :: s)|].
  exists rest. simpl. by rewrite <- IH.
Qed.

Lemma before_first_no_occurrence (sep s q r : str) :
  sep ≠ [] → before_first sep s ≠ q ++ sep ++ r.
Proof.
  intros Hsep E.
  destruct (before_first_part sep s Hsep) as [[E1 Hno]|(r' & E1 & Hmin)].
  - rewrite E1 in E. by destruct (Hno q r).
  - rewrite E in E1. rewrite <- !app_assoc in E1.
    specialize (Hmin q _ E1). rewrite E, !length_app in Hmin.
    destruct sep; [done|]. simpl in Hmin. lia.
Qed.

Lemma before_first_idempotent (sep s : str) :
  sep ≠ [] → before_first sep (before_first sep s) = before_first sep s.
Proof.
  intros Hsep. apply before_first_none. intros q r.
  by apply before_first_no_occurrence.
Qed.

Lemma before_first_keeps_absence (sep sep' s : str) :
  sep ≠ [] → (∀ q r, s ≠ q ++ sep ++ r) →
  ∀ q r, before_first sep' s ≠ q ++ sep ++ r.
Proof.
  intros Hsep Hno q r E. destruct (before_first_prefix sep' s) as [rest Es].
  rewrite E in Es. rewrite <- !app_assoc in Es. by destruct (Hno q (r ++ rest)).
Qed.

(** X2: a sample name holds no ["."] and no ["_peak_"], it is the
    beginning of the source name it comes from, and deriving a sample name
    from a sample name changes nothing. *)
Theorem sample_id_is_canonical (name : str) :
  ("."%char ∉ sample_id name)
  ∧ (∀ q r, sample_id name ≠ q ++ lit "_peak_" ++ r)
  ∧ (∃ rest, name = sample_id name ++ rest)
  ∧ sample_id (sample_id name) = sample_id name.
Proof.
  assert (Hdot : ∀ q r, sample_id name ≠ q ++ lit "." ++ r).
  { rewrite sample_id_before_first.
    apply before_first_keeps_absence; [done|]. intros q r.
    by apply before_first_no_occurrence. }
  assert (Hpeak : ∀ q r, sample_id name ≠ q ++ lit "_peak_" ++ r).
  { rewrite sample_id_before_first. intros q r.
    by apply before_first_no_occurrence. }
  split_and!.
  - intros (q & r & E)%list_elem_of_split. by destruct (Hdot q r).
  - done.
  - rewrite sample_id_before_first.
    destruct (before_first_prefix (lit ".") name) as [r1 E1].
    destruct (before_first_prefix (lit "_peak_") (before_first (lit ".") name))
      as [r2 E2].
    exists (r2 ++ r1). rewrite app_assoc, <- E2. done.
  - rewrite (sample_id_before_first (sample_id name)).
    rewrite (before_first_none (lit ".")) by done.
    by rewrite before_first_none.
Qed.

(** ** Replicate groups *)

Lemma split_at_last (c : ascii) (s : str) :
  c ∈ s → ∃ g t, s = g ++ c :: t ∧ c ∉ t.
Proof.
  induction s as [|a s IH]; [by intros []%elem_of_nil|].
  intros Hin. destruct (decide (c ∈ s)) as [Hs|Hs].
  - destruct (IH Hs) as (g & t & -> & Ht). by exists (a :: g), t.
  - apply elem_of_cons in Hin as [->|?]; [|done]. by exists [], s.
Qed.

(** X3: the group of a sample name is the name without its last
    ["_"]-delimited token: a name with a ["_"] is its group, a ["_"] and a
    last token without ["_"]; a name without ["_"] has the empty group. *)
Theorem group_id_drops_the_last_token (sid : str) :
  ("_"%char ∈ sid →
     ∃ t, ("_"%char ∉ t) ∧ sid = group_id sid ++ "_"%char :: t)
  ∧ ("_"%char ∉ sid → group_id sid = [])
  ∧ ∀ g t, "_"%char ∉ t → group_id (g ++ "_"%char :: t) = g.
Proof.
  split_and!.
  - intros (g & t & -> & Ht)%split_at_last. exists t. split; [done|].
    by rewrite group_id_drops_last_token.
  - apply group_id_no_underscore.
  - intros g t. apply group_id_drops_last_token.
Qed.

(** ** Exceptions of the run *)

Lemma bind_raise_with {A B} (P : exn → Prop) (m : result A)
    (f : A → result B) :
  (∀ e, m = Raise e → P e) → (∀ a e, f a = Raise e → P e) →
  ∀ e, m ≫= f = Raise e → P e.
Proof. intros Hm Hf e. destruct m as [a|e']; cbn; [apply Hf|]. intros [= ->]. by apply Hm. Qed.

Lemma fmap_raise_with {A B} (P : exn → Prop) (m : result A) (f : A → B) :
  (∀ e, m = Raise e → P e) → ∀ e, f <$> m = Raise e → P e.
Proof. intros Hm e. destruct m as [a|e']; cbn; [done|]. intros [= ->]. by apply Hm. Qed.

Lemma mapM_raise_with {A B} (P : exn → Prop) (f : A → result B) (l : list A) :
  (∀ x e, f x = Raise e → P e) → ∀ e, mapM f l = Raise e → P e.
Proof.
  intros Hf. induction l as [|x l IH]; intros e; cbn; [done|].
  destruct (f x) as [y|e'] eqn:E; cbn.
  - destruct (mapM f l) as [k|e'']; cbn; [done|]. intros [= ->]. by apply IH.
  - intros [= ->]. by apply (Hf x).
Qed.

Lemma index_raise {A} (l : list A) (i : nat) e :
  index l i = Raise e → e = IndexError ∧ (length l ≤ i)%nat.
Proof.
  unfold index. destruct (l !! i) eqn:E; [done|]. intros [= <-].
  by apply lookup_ge_None in E.
Qed.

Section Further.
Context {N : PyNum} (ord : SetOrder).

Lemma int_of_raise x e : int_of x = Raise e → e = ValueError.
Proof. unfold int_of. destruct (py_int x); [done|]. by intros [= <-]. Qed.

Lemma float_of_raise x e : float_of x = Raise e → e = ValueError.
Proof. unfold float_of. destruct (py_float x); [done|]. by intros [= <-]. Qed.

Lemma parse_row_raise line e :
  parse_row line = Raise e →
  (e = IndexError ∧ (length (line_fields line) < 11)%nat) ∨ e = ValueError.
Proof.
  unfold parse_row. revert e.
  set (P := λ e, (e = IndexError ∧ (length (line_fields line) < 11)%nat)
                 ∨ e = ValueError).
  assert (Hidx : ∀ i e, (i < 11)%nat → index (line_fields line) i = Raise e → P e).
  { intros i e Hi [-> Hlen]%index_raise. left. split; [done|lia]. }
  assert (Hint : ∀ x e, int_of x = Raise e → P e).
  { intros x e ->%int_of_raise. by right. }
  assert (Hfloat : ∀ x e, float_of x = Raise e → P e).
  { intros x e ->%float_of_raise. by right. }
  repeat first
    [ apply (bind_raise_with P); [|intros ?]
    | apply (fmap_raise_with P)
    | apply (mapM_raise_with P)
    | by apply Hint | by apply Hfloat
    | by (intros e; apply Hidx; lia)
    | by intros ? ? ].
Qed.

Lemma line_output_raise_kind snl (mr total : Z) line e :
  line_output snl mr total line = Raise e → e = IndexError ∨ e = ValueError.
Proof.
  unfold line_output. destruct (parse_row line) as [r|e'] eqn:Er; cbn.
  - fold (passing mr r).
    destruct (collect_values r (passing mr r)) as [v|e'] eqn:Ev; cbn.
    + apply collect_values_filled in Ev as [Hc Hf].
      destruct (row_output_total snl total r v) as [out ->]; [|done].
      intros s Hs. pose proof (filled_is_Some _ _ _ Hc Hf s). naive_solver.
    + intros [= ->]. apply collect_values_raise in Ev as [-> _]. by left.
  - intros [= ->]. apply parse_row_raise in Er. naive_solver.
Qed.

Lemma line_output_readable snl (mr total : Z) line :
  (∃ out, line_output snl mr total line = Ok out) ↔ readable mr line.
Proof.
  split.
  - intros [out (r & v & Er & Ev & _)%line_output_inv]. exists r. split; [done|].
    by apply collect_values_filled in Ev as [? _].
  - intros (r & Er & Hc). by apply (line_output_total _ _ _ _ r).
Qed.

Lemma expand_lines_readable snl (mr : Z) (st : state) lines :
  (∃ st', expand_lines snl mr st lines = (st', None))
  ↔ Forall (readable mr) lines.
Proof.
  revert st. induction lines as [|line lines IH]; intros st; simpl.
  { split; [done|]. by exists st. }
  rewrite Forall_cons, <- (line_output_readable snl mr (total_out_intervals st)).
  destruct (expand_line snl mr st line) as [st1|e] eqn:E.
  - rewrite IH. apply expand_line_inv in E as [[E _]|(ol & ts & E & _)];
      rewrite E; naive_solver.
  - apply expand_line_raise in E. rewrite E. naive_solver.
Qed.

(** ** Lines without the column of names *)

Lemma collect_step_raise (acc : gset str) line e :
  collect_step acc line = Raise e → e = IndexError ∧ lacks_names line.
Proof.
  unfold collect_step, lacks_names. intros E.
  destruct (decide (5 < length (line_fields line))%nat) as [Hlen|Hlen].
  - destruct (line_names_ok line Hlen) as (names & En & _).
    rewrite En in E. by cbn in E.
  - rewrite (line_names_raise line Hlen) in E. cbn in E. simplify_eq.
    split; [done|lia].
Qed.

Lemma collect_raises (acc : gset str) lines :
  Exists lacks_names lines →
  for_each collect_step acc lines = Raise IndexError.
Proof.
  intros Hex. revert acc.
  induction Hex as [line l Hl|line l _ IH]; intros acc; simpl.
  - assert (collect_step acc line = Raise IndexError) as ->; [|done].
    unfold lacks_names in Hl. unfold collect_step.
    rewrite line_names_raise by lia. done.
  - destruct (collect_step acc line) as [acc'|e] eqn:E; cbn; [apply IH|].
    by apply collect_step_raise in E as [-> _].
Qed.

Lemma collect_sample_names_raise lines :
  (∃ e, collect_sample_names lines = Raise e) ↔ Exists lacks_names lines.
Proof.
  split.
  - intros [e E].
    destruct (decide (Exists (λ line, length (line_fields line) ≤ 5)%nat lines))
      as [?|Hno]; [done|].
    apply not_Exists_Forall in Hno; [|intros ?; apply _].
    destruct (collect_from ∅ lines) as (all & Eall & _).
    { eapply Forall_impl; [exact Hno|]. simpl. intros. lia. }
    unfold collect_sample_names in E. congruence.
  - intros Hex. exists IndexError. by apply collect_raises.
Qed.

Lemma readable_has_names (mr : Z) line : readable mr line → ¬ lacks_names line.
Proof.
  intros (r & Er & _) Hl. apply parse_row_fields in Er as [_ En].
  unfold lacks_names in Hl. rewrite line_names_raise in En by lia. done.
Qed.

Lemma collect_readable (mr : Z) lines :
  Forall (readable mr) lines → ∃ all, collect_sample_names lines = Ok all.
Proof.
  intros Hall. destruct (collect_sample_names lines) as [all|e] eqn:E; [by exists all|].
  assert (Hex : Exists lacks_names lines).
  { apply collect_sample_names_raise. by exists e. }
  apply Exists_exists in Hex as (line & Hin & Hl).
  rewrite Forall_forall in Hall. by destruct (readable_has_names mr line (Hall _ Hin)).
Qed.

(** X4: nothing is written exactly when some line has no column 5: the
    run then ends with [IndexError] while it collects the sample names,
    before [OUTFILE] is opened. *)
Theorem missing_names_column_writes_nothing lines (mr : Z) :
  (primary (macs2_merged_expand ord lines mr) = None ↔ Exists lacks_names lines)
  ∧ (primary (macs2_merged_expand ord lines mr) = None →
     macs2_merged_expand ord lines mr
     = {| primary := None; secondary := None; raised := Some IndexError |}).
Proof.
  unfold macs2_merged_expand.
  destruct (collect_sample_names lines) as [all|e] eqn:E.
  - assert (Hno : ¬ Exists lacks_names lines).
    { intros [e E']%collect_sample_names_raise. congruence. }
    destruct (expand_lines _ _ _ _) as [st [e|]]; simpl; split; try done;
      split; done.
  - assert (Hex : Exists lacks_names lines).
    { apply collect_sample_names_raise. by exists e. }
    unfold collect_sample_names in E. rewrite collect_raises in E by done.
    simplify_eq. by split.
Qed.

Lemma py_lstrip_spaces (s : str) :
  (∀ c, c ∈ s → is_space c = true) → py_lstrip s = [].
Proof.
  induction s as [|c s IH]; intros Hs; simpl; [done|].
  rewrite (Hs c) by left. apply IH. intros c' Hc'. apply Hs. by right.
Qed.

(** X5: an empty line, or a line of white space only, anywhere in the
    input ends the run with [IndexError] before anything is written. *)
Theorem blank_line_aborts_the_run lines line (mr : Z) :
  line ∈ lines → (∀ c, c ∈ line → is_space c = true) →
  macs2_merged_expand ord lines mr
  = {| primary := None; secondary := None; raised := Some IndexError |}.
Proof.
  intros Hin Hsp. unfold macs2_merged_expand, collect_sample_names.
  rewrite collect_raises; [done|].
  apply Exists_exists. exists line. split; [done|].
  unfold lacks_names, line_fields, py_strip. rewrite py_lstrip_spaces by done.
  cbn. lia.
Qed.

(** ** The first line that cannot be processed *)

(** X6: when the lines before [line] can be processed and [line] cannot,
    the run ends at [line] with [IndexError] or [ValueError]; the header
    and the rows of the lines before it stay in [OUTFILE], and the table of
    combinations is not written. *)
Theorem first_bad_line_ends_the_run (pre : list str) (line : str)
    (post : list str) (mr : Z) (all : gset str) :
  collect_sample_names (pre ++ line :: post) = Ok all →
  Forall (readable mr) pre → ¬ readable mr line →
  let snl := sorted_sample_names ord all in
  ∃ e, (e = IndexError ∨ e = ValueError)
    ∧ macs2_merged_expand ord (pre ++ line :: post) mr
      = {| primary :=
             Some (out_line (ofields snl)
                   :: imap (λ k l, row_text snl mr (Z.of_nat k) l)
                        (filter (row_contributes mr) pre));
           secondary := None;
           raised := Some e |}.
Proof.
  intros Eall Hpre Hline snl.
  apply (expand_lines_readable snl mr (initial_state snl)) in Hpre as [st Est].
  destruct (line_output snl mr (total_out_intervals st) line) as [out|e] eqn:Eo.
  { destruct Hline. apply (line_output_readable snl mr (total_out_intervals st)).
    by exists out. }
  exists e. split; [by apply line_output_raise_kind in Eo|].
  unfold macs2_merged_expand. rewrite Eall. fold snl.
  rewrite expand_lines_app, Est. simpl.
  apply expand_line_raise in Eo. rewrite Eo.
  apply expand_lines_rows in Est
    as (processed & rest & Epre & Hrest & Hw & _).
  rewrite (Hrest eq_refl), app_nil_r in Epre. subst processed.
  rewrite Hw. simpl. done.
Qed.

Lemma run_completes_iff_readable lines (mr : Z) :
  raised (macs2_merged_expand ord lines mr) = None ↔ Forall (readable mr) lines.
Proof.
  unfold macs2_merged_expand.
  destruct (collect_sample_names lines) as [all|e] eqn:E.
  - destruct (expand_lines _ _ _ lines) as [st [e|]] eqn:Est; simpl.
    + split; [done|].
      intros [st' Est']%(expand_lines_readable (sorted_sample_names ord all) mr
          (initial_state (sorted_sample_names ord all))). congruence.
    + split; [|done]. intros _.
      apply (expand_lines_readable (sorted_sample_names ord all) mr
               (initial_state (sorted_sample_names ord all))). by exists st.
  - simpl. split; [done|]. intros [all E']%collect_readable. congruence.
Qed.

(** X7: the run ends without an exception exactly when every line can be
    processed; the two files are then both written. *)
Theorem run_completes_iff_lines_readable lines (mr : Z) :
  (raised (macs2_merged_expand ord lines mr) = None ↔ Forall (readable mr) lines)
  ∧ (raised (macs2_merged_expand ord lines mr) = None →
     is_Some (primary (macs2_merged_expand ord lines mr))
     ∧ is_Some (secondary (macs2_merged_expand ord lines mr))).
Proof.
  split; [apply run_completes_iff_readable|].
  unfold macs2_merged_expand.
  destruct (collect_sample_names lines) as [all|e]; [|done].
  destruct (expand_lines _ _ _ lines) as [st [e|]]; simpl; [done|by eauto].
Qed.

Lemma expand_lines_no_KeyError snl (mr : Z) (st : state) lines :
  (expand_lines snl mr st lines).2 ≠ Some KeyError.
Proof.
  revert st. induction lines as [|line l IH]; intros st; simpl; [done|].
  destruct (expand_line snl mr st line) as [st1|e] eqn:Est; [apply IH|].
  simpl. apply expand_line_raise, line_output_raise_kind in Est. naive_solver.
Qed.

(** X8: the run never ends with [KeyError]: a sample that is looked up in
    one of the five dictionaries of a row has an entry in each of them. *)
Theorem run_never_raises_KeyError lines (mr : Z) :
  raised (macs2_merged_expand ord lines mr) ≠ Some KeyError.
Proof.
  unfold macs2_merged_expand.
  destruct (collect_sample_names lines) as [all|e] eqn:E.
  - set (snl := sorted_sample_names ord all).
    pose proof (expand_lines_no_KeyError snl mr (initial_state snl) lines) as H.
    destruct (expand_lines snl mr (initial_state snl) lines) as [st [e|]];
      simpl in *; [congruence|done].
  - unfold collect_sample_names in E. simpl.
    destruct (decide (Exists (λ line, length (line_fields line) ≤ 5)%nat lines))
      as [Hex|Hno].
    + rewrite collect_raises in E by done. congruence.
    + destruct Hno. apply collect_sample_names_raise. by exists e.
Qed.

(** ** The fields that a row is read from *)

Lemma index_ok {A} (l : list A) (i : nat) (x : A) :
  index l i = Ok x ↔ l !! i = Some x.
Proof. unfold index. destruct (l !! i); naive_solver. Qed.

Lemma int_of_ok x : (∃ z, int_of x = Ok z) ↔ is_Some (py_int x).
Proof.
  unfold int_of. destruct (py_int x) as [z|].
  - split; [by eauto|]. by exists z.
  - split; [by intros [? ?]|by intros [? ?]].
Qed.

Lemma float_of_ok x : (∃ v, float_of x = Ok v) ↔ is_Some (py_float x).
Proof.
  unfold float_of. destruct (py_float x) as [v|].
  - split; [by eauto|]. by exists v.
  - split; [by intros [? ?]|by intros [? ?]].
Qed.

Lemma mapM_ok_iff {A B} (f : A → result B) (l : list A) :
  (∃ k, mapM f l = Ok k) ↔ Forall (λ x, ∃ y, f x = Ok y) l.
Proof.
  split.
  - intros [k Hk%mapM_ok]. induction Hk; constructor; eauto.
  - intros Hall. apply mapM_total. by apply Forall_forall.
Qed.

Lemma ints_ok field :
  (∃ k, mapM int_of (py_split (lit ",") field) = Ok k) ↔ int_tokens field.
Proof.
  rewrite mapM_ok_iff. unfold int_tokens. apply Forall_iff. intros t.
  apply int_of_ok.
Qed.

Lemma floats_ok field :
  (∃ k, mapM float_of (py_split (lit ",") field) = Ok k) ↔ float_tokens field.
Proof.
  rewrite mapM_ok_iff. unfold float_tokens. apply Forall_iff. intros t.
  apply float_of_ok.
Qed.

Lemma parse_row_numeric line : (∃ r, parse_row line = Ok r) ↔ numeric_fields line.
Proof.
  unfold parse_row, numeric_fields. split.
  - intros [r E].
    apply bind_ok in E as (c & _ & E).
    apply bind_ok in E as (z1 & (f1 & E1%index_ok & I1)%bind_ok & E).
    apply bind_ok in E as (z2 & (f2 & E2%index_ok & I2)%bind_ok & E).
    apply bind_ok in E as (k3 & (f3 & E3%index_ok & I3)%bind_ok & E).
    apply bind_ok in E as (k4 & (f4 & E4%index_ok & I4)%bind_ok & E).
    apply bind_ok in E as (ns & _ & E).
    apply bind_ok in E as (k8 & (f8 & E8%index_ok & I8)%bind_ok & E).
    apply bind_ok in E as (k9 & (f9 & E9%index_ok & I9)%bind_ok & E).
    apply bind_ok in E as (k10 & (f10 & E10%index_ok & I10)%bind_ok & _).
    exists f1, f2, f3, f4, f8, f9, f10. split_and!; try done.
    + apply int_of_ok. by exists z1.
    + apply int_of_ok. by exists z2.
    + apply ints_ok. by exists k3.
    + apply ints_ok. by exists k4.
    + apply floats_ok. by exists k8.
    + apply floats_ok. by exists k9.
    + apply floats_ok. by exists k10.
  - intros (f1 & f2 & f3 & f4 & f8 & f9 & f10 & E1 & E2 & E3 & E4 & E8 & E9
            & E10 & [z1 I1]%int_of_ok & [z2 I2]%int_of_ok & [k3 I3]%ints_ok
            & [k4 I4]%ints_ok & [k8 I8]%floats_ok & [k9 I9]%floats_ok
            & [k10 I10]%floats_ok).
    pose proof (lookup_lt_Some _ _ _ E10) as Hlen.
    destruct (lookup_lt_is_Some_2 (line_fields line) 0) as [f0 E0]; [lia|].
    destruct (lookup_lt_is_Some_2 (line_fields line) 5) as [f5 E5]; [lia|].
    unfold index. rewrite E0, E1, E2, E3, E4, E5, E8, E9, E10. cbn -[lit].
    rewrite I1, I2, I3, I4, I8, I9, I10. cbn. by eexists.
Qed.

(** X9: a line is read as a row exactly when it has the columns 0 to 10
    with integers in the columns 1 to 4 and floats in the columns 8 to 10;
    otherwise reading it raises [ValueError], or [IndexError], and
    [IndexError] only for a line of fewer than 11 columns. *)
Theorem parse_row_reads_numeric_fields line :
  ((∃ r, parse_row line = Ok r) ↔ numeric_fields line)
  ∧ (∀ e, parse_row line = Raise e →
       (e = IndexError ∧ (length (line_fields line) < 11)%nat) ∨ e = ValueError)
  ∧ ((length (line_fields line) < 11)%nat → ∃ e, parse_row line = Raise e).
Proof.
  split_and!.
  - apply parse_row_numeric.
  - apply parse_row_raise.
  - intros Hlen. destruct (parse_row line) as [r|e] eqn:E; [|by exists e].
    assert (Hn : numeric_fields line) by (apply parse_row_numeric; by exists r).
    destruct Hn as (? & ? & ? & ? & ? & ? & f10 & _ & _ & _ & _ & _ & _ & E10 & _).
    apply lookup_lt_Some in E10. lia.
Qed.

(** ** The row of a line in closed form *)

Lemma aligned_complete (r : row) pass :
  aligned r → ∀ idx, eligible r pass idx → complete r idx.
Proof.
  intros (? & ? & ? & ? & ?) idx (name & Hn%lookup_lt_Some & _).
  unfold complete. lia.
Qed.

Lemma entry_Some_eq (l : list str) : is_Some (entry l) → entry l = Some l.
Proof. destruct l; [by intros [? ?]|done]. Qed.

Lemma elem_of_combination (mr : Z) (r : row) s :
  s ∈ combination mr r ↔ contributes r (passing mr r) s.
Proof.
  unfold combination, contributing_samples, contributes.
  rewrite py_sorted_elem, elem_of_remove_dups, list_elem_of_filter. done.
Qed.

Lemma combination_nil (mr : Z) (r : row) :
  combination mr r = [] ↔ contributing_samples mr r = [].
Proof.
  unfold combination. rewrite py_sorted_nil. split.
  - intros E. destruct (contributing_samples mr r) as [|s l]; [done|].
    assert (s ∈ remove_dups (s :: l)) as Hs by (apply elem_of_remove_dups; left).
    rewrite E in Hs. by apply elem_of_nil in Hs.
  - by intros ->.
Qed.

Lemma keys_combination (mr : Z) (r : row) (v : values) :
  (∀ idx, eligible r (passing mr r) idx → complete r idx) →
  columns_filled r (passing mr r) v →
  py_sorted (keys (fc_dict v)) = combination mr r.
Proof.
  intros Hc Hf. unfold combination. apply py_sorted_of_perm.
  apply NoDup_Permutation; [apply NoDup_keys|apply NoDup_remove_dups|].
  intros s. rewrite elem_of_keys.
  destruct (filled_is_Some _ _ _ Hc Hf s) as (-> & _).
  rewrite <- (py_sorted_elem (remove_dups _)). apply symmetry, elem_of_combination.
Qed.

Lemma value_cells_closed (r : row) (pass : list str) (d : gmap str (list str))
    (samples col snl : list str) :
  length col = length (names r) →
  (∀ s, d !! s = entry (taken r pass col s (length (names r)))) →
  (∀ s, s ∈ samples → s ∈ pass ∧ is_Some (d !! s)) →
  mapM (value_cell d samples) snl = Ok (cell_of samples r col <$> snl).
Proof.
  intros Hlen Hd Hs. apply mapM_ok, Forall2_fmap_r, Forall_Forall2_diag.
  apply Forall_forall. intros x _. apply value_cell_ok. unfold cell_of.
  destruct (decide (x ∈ samples)) as [Hx|Hx]; [right|by left].
  split; [done|]. exists (values_of (names r) col x). split; [|done].
  destruct (Hs x Hx) as [Hp Hsome]. rewrite Hd in Hsome |- *.
  rewrite taken_values_of in Hsome |- * by done.
  rewrite decide_True in Hsome |- * by done. by apply entry_Some_eq.
Qed.

(** X10: the row of a line whose five sequences have one value for each
    source: nothing when no sample contributes; otherwise the coordinates,
    the identifier, the number of sources and the number of contributing
    samples, then for each sample of the header [TRUE] or [FALSE], and in
    each block of values the values of its sources joined by [";"], in the
    order of the sources, or [NA]. *)
Theorem row_in_closed_form snl (mr total : Z) line (r : row) :
  parse_row line = Ok r → aligned r →
  line_output snl mr total line
  = Ok (if decide (combination mr r = []) then None
        else Some (expected_fields snl total mr r, combination mr r)).
Proof.
  intros Er Hal.
  pose proof (aligned_complete r (passing mr r) Hal) as Hc.
  destruct Hal as (Hfc & Hqv & Hpv & Hst & Hen).
  destruct (line_output_total snl mr total line r Er Hc) as [out Eo].
  rewrite Eo. f_equal.
  apply line_output_inv in Eo as (r' & v & Er' & Ev & Eo).
  assert (r' = r) as -> by congruence.
  apply collect_values_filled in Ev as [_ Hf].
  pose proof (keys_combination mr r v Hc Hf) as Hk.
  apply row_output_inv in Eo. simpl in Eo. rewrite Hk in Eo.
  destruct Eo as [[E ->]|(Hne & fc & qv & pv & st & en & -> & Efc & Eqv & Epv & Est & Een)].
  { by rewrite decide_True. }
  rewrite decide_False by done. unfold expected_fields.
  pose proof (filled_is_Some _ _ _ Hc Hf) as Hsome.
  assert (Hs : ∀ s, s ∈ combination mr r →
            s ∈ passing mr r ∧ is_Some (fc_dict v !! s)
            ∧ is_Some (qval_dict v !! s) ∧ is_Some (pval_dict v !! s)
            ∧ is_Some (start_dict v !! s) ∧ is_Some (end_dict v !! s)).
  { intros s Hin%elem_of_combination.
    destruct (Hsome s) as (H1 & H2 & H3 & H4 & H5).
    split; [apply Hin|]. split_and!; [by apply H1|by apply H2|by apply H3
                                      |by apply H4|by apply H5]. }
  rewrite (value_cells_closed r (passing mr r) _ _ (str_float <$> fcs r)) in Efc;
    [|by rewrite length_fmap|apply Hf|intros s Hin; by destruct (Hs s Hin) as (? & ? & ? & ? & ? & ?)].
  rewrite (value_cells_closed r (passing mr r) _ _ (str_float <$> qvals r)) in Eqv;
    [|by rewrite length_fmap|apply Hf|intros s Hin; by destruct (Hs s Hin) as (? & ? & ? & ? & ? & ?)].
  rewrite (value_cells_closed r (passing mr r) _ _ (str_float <$> pvals r)) in Epv;
    [|by rewrite length_fmap|apply Hf|intros s Hin; by destruct (Hs s Hin) as (? & ? & ? & ? & ? & ?)].
  rewrite (value_cells_closed r (passing mr r) _ _ (str_int <$> starts r)) in Est;
    [|by rewrite length_fmap|apply Hf|intros s Hin; by destruct (Hs s Hin) as (? & ? & ? & ? & ? & ?)].
  rewrite (value_cells_closed r (passing mr r) _ _ (str_int <$> ends r)) in Een;
    [|by rewrite length_fmap|apply Hf|intros s Hin; by destruct (Hs s Hin) as (? & ? & ? & ? & ? & ?)].
  by simplify_eq.
Qed.

(** ** The replicate threshold *)

Lemma parse_row_names_nonempty line (r : row) :
  parse_row line = Ok r → names r ≠ [].
Proof.
  intros [_ En]%parse_row_fields. unfold line_names in En.
  apply bind_ok in En as (f & _ & [= <-]). apply split_from_nonempty.
Qed.

Lemma row_contributes_elem (mr : Z) line :
  row_contributes mr line ↔
  ∃ r s, parse_row line = Ok r ∧ s ∈ passing mr r ∧ s ∈ sample_id <$> names r.
Proof.
  unfold row_contributes. destruct (parse_row line) as [r|e]; [|naive_solver].
  unfold contributing_samples. split.
  - intros Hne. destruct (filter _ _) as [|s l] eqn:E; [done|].
    assert (s ∈ s :: l) as Hs by left. rewrite <- E in Hs.
    apply list_elem_of_filter in Hs. by exists r, s.
  - intros (r' & s & [= <-] & Hp & Hn) E.
    assert (s ∈ filter (λ s, s ∈ passing mr r) (sample_id <$> names r)) as Hs
      by by apply list_elem_of_filter.
    rewrite E in Hs. by apply elem_of_nil in Hs.
Qed.

Lemma completed_run_rows lines (mr : Z) (ws : list str) :
  raised (macs2_merged_expand ord lines mr) = None →
  primary (macs2_merged_expand ord lines mr) = Some ws →
  length ws = S (length (filter (row_contributes mr) lines)).
Proof.
  unfold macs2_merged_expand.
  destruct (collect_sample_names lines) as [all|e]; [|done].
  destruct (expand_lines _ _ _ lines) as [st [e|]] eqn:Est; [done|]. simpl.
  intros _ [= <-].
  apply expand_lines_rows in Est as (processed & rest & -> & Hrest & -> & _).
  rewrite (Hrest eq_refl), app_nil_r. simpl. by rewrite length_imap.
Qed.



Lemma filter_all {A} (P : A → Prop) `{∀ x, Decision (P x)} (l : list A) :
  Forall P l → filter P l = l.
Proof.
  induction 1 as [|x l HP _ IH]; [done|].
  by rewrite filter_cons, decide_True, IH.
Qed.

(** X12: with a threshold of 1 (the default) or below no row is dropped:
    every sample of a row passes, and a run that completes writes the
    header and one row for each line of the input. *)
Theorem default_threshold_keeps_every_row lines (mr : Z) (ws : list str) :
  mr ≤ 1 →
  raised (macs2_merged_expand ord lines mr) = None →
  primary (macs2_merged_expand ord lines mr) = Some ws →
  length ws = S (length lines)
  ∧ ∀ line r, line ∈ lines → parse_row line = Ok r →
      ∀ s, s ∈ combination mr r ↔ s ∈ sample_id <$> names r.
Proof.
  intros Hmr R E. split.
  - rewrite (completed_run_rows lines mr ws R E). f_equal. f_equal.
    apply filter_all.
    apply run_completes_iff_readable in R. eapply Forall_impl; [exact R|].
    intros line (r & Er & _). apply row_contributes_elem.
    pose proof (parse_row_names_nonempty line r Er) as Hne.
    destruct (names r) as [|name l] eqn:En; [done|].
    exists r, (sample_id name). split; [done|]. rewrite En.
    split; [|by left]. unfold passing. rewrite En.
    apply all_pass_at_one; [done|by left].
  - intros line r _ _ s. rewrite elem_of_combination. unfold contributes, passing.
    split; [by intros [_ ?]|]. intros Hs. split; [|done].
    by apply all_pass_at_one.
Qed.

(** X13: the samples of a replicate group pass together: of two samples
    of a row that have the same group either both pass the threshold or
    neither does. *)
Theorem replicates_pass_together (mr : Z) (names : list str) (sid1 sid2 : str) :
  sid1 ∈ sample_id <$> names → sid2 ∈ sample_id <$> names →
  group_id sid1 = group_id sid2 →
  sid1 ∈ pass_rep_thresh mr (build_group_dict names)
  ↔ sid2 ∈ pass_rep_thresh mr (build_group_dict names).
Proof. intros H1 H2 Hg. rewrite !passes_iff, Hg. naive_solver. Qed.

(** ** The table of combinations *)

Lemma line_output_combination snl (mr total : Z) line out :
  line_output snl mr total line = Ok out → snd <$> out = combination_of mr line.
Proof.
  intros (r & v & Er & Ev & Eo)%line_output_inv.
  apply collect_values_filled in Ev as [Hc Hf].
  pose proof (keys_combination mr r v Hc Hf) as Hk.
  apply row_output_inv in Eo. simpl in Eo. rewrite Hk in Eo.
  unfold combination_of. rewrite Er.
  destruct Eo as [[E ->]|(Hne & ? & ? & ? & ? & ? & -> & _)].
  - by rewrite decide_True.
  - by rewrite decide_False.
Qed.

Lemma count_combination_lookup (d : gmap (list str) Z) (ts key : list str) :
  count_combination d ts !! key
  = if decide (key = ts) then Some (default 0 (d !! ts) + 1) else d !! key.
Proof.
  unfold count_combination.
  destruct (decide (ts ∈ dom d)) as [Hin|Hin], (decide (key = ts)) as [->|Hne].
  - by rewrite lookup_insert_eq.
  - by rewrite lookup_insert_ne.
  - rewrite !lookup_insert_eq. apply not_elem_of_dom in Hin. by rewrite Hin.
  - by rewrite !lookup_insert_ne.
Qed.

Lemma rows_with_snoc (mr : Z) (key : list str) (lines : list str) line :
  rows_with mr key (lines ++ [line])
  = (rows_with mr key lines
     + if decide (combination_of mr line = Some key) then 1 else 0)%nat.
Proof.
  unfold rows_with. rewrite filter_app, length_app. f_equal.
  rewrite filter_cons, filter_nil. by destruct (decide _).
Qed.

Lemma count_entry_default (n : nat) : default 0 (count_entry n) = Z.of_nat n.
Proof. by destruct n. Qed.

Lemma count_entry_Some (n : nat) (z : Z) :
  count_entry n = Some z ↔ z = Z.of_nat n ∧ 0 < z.
Proof.
  destruct n; simpl; [split; [done|lia]|].
  split; [intros [= <-]; lia|]. by intros [-> _].
Qed.

Lemma expand_lines_counts snl (mr : Z) (st st' : state) (seen lines : list str) :
  (∀ key, comb_freq_dict st !! key = count_entry (rows_with mr key seen)) →
  expand_lines snl mr st lines = (st', None) →
  ∀ key, comb_freq_dict st' !! key
         = count_entry (rows_with mr key (seen ++ lines)).
Proof.
  revert st seen. induction lines as [|line lines IH]; intros st seen Hst; simpl.
  { intros [= <-]. by rewrite app_nil_r. }
  destruct (expand_line snl mr st line) as [st1|e] eqn:E; [|done].
  intros Est. rewrite (assoc_L (++) seen [line] lines : seen ++ line :: lines = _).
  apply (IH st1); [|done]. intros key. rewrite rows_with_snoc.
  apply expand_line_inv in E as [[Eo ->]|(olist & ts & Eo & ->)];
    apply line_output_combination in Eo; simpl in Eo; rewrite <- Eo.
  - rewrite decide_False by done. by rewrite Nat.add_0_r.
  - simpl. rewrite count_combination_lookup.
    destruct (decide (key = ts)) as [->|Hne].
    + rewrite decide_True by done. rewrite Hst, count_entry_default.
      rewrite Nat.add_1_r. simpl. f_equal. lia.
    + rewrite decide_False by congruence. by rewrite Nat.add_0_r.
Qed.

Lemma completed_run_table lines (mr : Z) :
  raised (macs2_merged_expand ord lines mr) = None →
  ∃ d, secondary (macs2_merged_expand ord lines mr)
       = Some (intersect_line <$> comb_freq_items d)
     ∧ ∀ key, d !! key = count_entry (rows_with mr key lines).
Proof.
  unfold macs2_merged_expand.
  destruct (collect_sample_names lines) as [all|e]; [|done].
  destruct (expand_lines _ _ _ lines) as [st [e|]] eqn:Est; [done|]. simpl.
  intros _. exists (comb_freq_dict st). split; [done|].
  refine (expand_lines_counts _ _ _ _ [] lines _ Est).
  intros key. simpl. apply lookup_empty.
Qed.

Lemma comb_freq_items_elem (d : gmap (list str) Z) (n : Z) (key : list str) :
  (n, key) ∈ comb_freq_items d ↔ d !! key = Some n.
Proof.
  rewrite comb_freq_items_perm, list_elem_of_fmap. split.
  - intros ([k z] & [= -> ->] & Hin). by apply elem_of_map_to_list in Hin.
  - intros Hd. exists (key, n). split; [done|]. by apply elem_of_map_to_list.
Qed.

Lemma comb_freq_items_NoDup (d : gmap (list str) Z) : NoDup (comb_freq_items d).*2.
Proof.
  rewrite comb_freq_items_perm, <- list_fmap_compose.
  apply (NoDup_fst_map_to_list d).
Qed.

(** X14: the table of a run that completes has one line for each
    combination that some line of the input gives, and none else; the
    count on that line is the number of lines of the input that give the
    combination. *)
Theorem table_counts_lines_of_each_combination lines (mr : Z) :
  raised (macs2_merged_expand ord lines mr) = None →
  ∃ items,
    secondary (macs2_merged_expand ord lines mr) = Some (intersect_line <$> items)
    ∧ NoDup items.*2
    ∧ ∀ n key, (n, key) ∈ items
               ↔ n = Z.of_nat (rows_with mr key lines) ∧ 0 < n.
Proof.
  intros (d & Es & Hd)%completed_run_table. exists (comb_freq_items d).
  split_and!; [done|apply comb_freq_items_NoDup|].
  intros n key. by rewrite comb_freq_items_elem, Hd, count_entry_Some.
Qed.

Lemma rows_with_pos (mr : Z) (key : list str) lines :
  (0 < rows_with mr key lines)%nat →
  ∃ line, line ∈ lines ∧ combination_of mr line = Some key.
Proof.
  unfold rows_with. intros Hpos.
  destruct (filter _ lines) as [|line l] eqn:E; [simpl in Hpos; lia|].
  assert (line ∈ line :: l) as Hin by left. rewrite <- E in Hin.
  apply list_elem_of_filter in Hin as [? ?]. by exists line.
Qed.

Lemma combination_of_Some (lines : list str) (all : gset str) (mr : Z)
    (line : str) (key : list str) :
  collect_sample_names lines = Ok all → line ∈ lines →
  combination_of mr line = Some key →
  key ≠ [] ∧ ∀ s, s ∈ key → s ∈ all.
Proof.
  intros Eall Hin. unfold combination_of.
  destruct (parse_row line) as [r|e] eqn:Er; [|done].
  destruct (decide (combination mr r = [])) as [|Hne]; [done|].
  intros [= <-]. split; [done|].
  intros s [_ (name & -> & Hname)%list_elem_of_fmap]%elem_of_combination.
  apply (collect_sample_names_elem lines all); [done|].
  exists line, name. split_and!; [done| |done].
  apply parse_row_fields in Er as [_ En]. unfold line_names in En.
  apply bind_ok in En as (f & Ef%index_ok & [= Ens]).
  exists f. split; [done|]. unfold lit. simpl. by rewrite Ens.
Qed.

(** X15: a line of the table reads back: it is the combination joined by
    ["&"], a tab and the count; the combination is not empty and made of
    samples of the header; splitting the text at the tab gives the two
    fields, and splitting the first at ["&"] gives the samples back when no
    sample name holds a ["&"]. *)
Theorem table_line_reads_back (lines : list str) (mr : Z) (all : gset str)
    (tbl : list str) (w : str) :
  collect_sample_names lines = Ok all →
  secondary (macs2_merged_expand ord lines mr) = Some tbl → w ∈ tbl →
  ∃ n key,
    w = py_join (lit "&") key ++ [tab] ++ str_int n ++ [newline]
    ∧ key ≠ [] ∧ (∀ s, s ∈ key → s ∈ all)
    ∧ py_split [tab] (py_join (lit "&") key ++ [tab] ++ str_int n)
      = [py_join (lit "&") key; str_int n]
    ∧ ((∀ s, s ∈ all → "&"%char ∉ s) →
       py_split (lit "&") (py_join (lit "&") key) = key).
Proof.
  intros Eall Es Hw.
  assert (R : raised (macs2_merged_expand ord lines mr) = None).
  { revert Es. unfold macs2_merged_expand. rewrite Eall.
    by destruct (expand_lines _ _ _ lines) as [st [e|]]. }
  destruct (completed_run_table lines mr R) as (d & Es' & Hd).
  rewrite Es in Es'. injection Es' as ->.
  apply list_elem_of_fmap in Hw as ([n key] & -> & Hin).
  apply comb_freq_items_elem in Hin. rewrite Hd in Hin.
  apply count_entry_Some in Hin as [-> Hpos].
  destruct (rows_with_pos mr key lines) as (line & Hline & Ec); [lia|].
  destruct (combination_of_Some lines all mr line key Eall Hline Ec)
    as [Hne Hkey].
  exists (Z.of_nat (rows_with mr key lines)), key.
  split_and!; [done|done|done| |].
  - apply (py_split_join tab [py_join (lit "&") key; str_int _]); [done|].
    repeat constructor; [|apply str_int_tab_free].
    apply (join_tab_free "&"%char); [done|].
    apply Forall_forall. intros s Hs.
    apply (sample_tab_free lines all); [done|]. by apply Hkey.
  - intros Hamp. apply (py_split_join "&"%char key Hne).
    apply Forall_forall. intros s Hs. by apply Hamp, Hkey.
Qed.

(** ** Runs that write no row *)

Lemma expand_lines_dropped snl (mr : Z) (st : state) lines :
  Forall (λ line, ∃ r, parse_row line = Ok r ∧ contributing_samples mr r = [])
    lines →
  expand_lines snl mr st lines = (st, None).
Proof.
  induction 1 as [|line lines (r & Er & Hnone) _ IH]; simpl; [done|].
  unfold expand_line.
  by rewrite (line_output_dropped snl mr _ line r Er Hnone).
Qed.

(** X16: when no line has a contributing sample, the run writes the
    header alone and an empty table, and raises nothing; so it does on an
    empty input, where the header has the six fixed columns only. *)
Theorem no_contributing_line_writes_header_only lines (mr : Z) :
  Forall (λ line, ∃ r, parse_row line = Ok r ∧ contributing_samples mr r = [])
    lines →
  (∃ all, collect_sample_names lines = Ok all
     ∧ macs2_merged_expand ord lines mr
       = {| primary := Some [out_line (ofields (sorted_sample_names ord all))];
            secondary := Some [];
            raised := None |})
  ∧ macs2_merged_expand ord [] mr
    = {| primary :=
           Some [lit "chr" ++ [tab] ++ lit "start" ++ [tab] ++ lit "end"
                 ++ [tab] ++ lit "interval_id" ++ [tab] ++ lit "num_peaks"
                 ++ [tab] ++ lit "num_samples" ++ [newline]];
         secondary := Some [];
         raised := None |}.
Proof.
  intros Hall. split.
  - destruct (collect_readable mr lines) as [all Eall].
    { eapply Forall_impl; [exact Hall|]. intros line (r & Er & Hnone).
      exists r. split; [done|]. intros idx (name & Hn & Hp).
      assert (sample_id name ∈ contributing_samples mr r) as Hin.
      { apply list_elem_of_filter. split; [done|].
        apply list_elem_of_fmap. exists name. split; [done|].
        by eapply list_elem_of_lookup_2. }
      rewrite Hnone in Hin. by apply elem_of_nil in Hin. }
    exists all. split; [done|]. unfold macs2_merged_expand. rewrite Eall.
    by rewrite expand_lines_dropped.
  - unfold macs2_merged_expand. simpl.
    assert (sorted_sample_names ord ∅ = []) as ->; [|done].
    apply py_sorted_nil. apply Permutation_nil_r.
    rewrite (set_iter_perm ord ∅). by rewrite elements_empty.
Qed.

(** ** The names of the columns *)

Lemma suffixed_suffix (sfx : string) snl f :
  f ∈ suffixed sfx snl → lit sfx `suffix_of` f.
Proof. intros (x & -> & _)%list_elem_of_fmap. by exists x. Qed.

Lemma suffixed_disjoint (a b : string) snl f :
  bool_decide (lit a `suffix_of` lit b) = false →
  bool_decide (lit b `suffix_of` lit a) = false →
  f ∈ suffixed a snl → f ∈ suffixed b snl → False.
Proof.
  intros Ha%bool_decide_eq_false Hb%bool_decide_eq_false
    Hfa%suffixed_suffix Hfb%suffixed_suffix.
  by destruct (suffix_weak_total _ _ _ Hfa Hfb).
Qed.

Lemma not_suffixed (sfx : string) snl f :
  bool_decide (lit sfx `suffix_of` f) = false → f ∉ suffixed sfx snl.
Proof. intros H%bool_decide_eq_false Hf%suffixed_suffix. done. Qed.

Lemma suffixed_NoDup (sfx : string) snl : NoDup snl → NoDup (suffixed sfx snl).
Proof.
  apply NoDup_fmap_2. intros x y E. by apply app_inv_tail in E.
Qed.

Lemma ofields_NoDup snl : NoDup snl → NoDup (ofields snl).
Proof.
  intros Hnd. unfold ofields.
  repeat (apply NoDup_app; split_and!;
          [try by apply suffixed_NoDup| |try by apply suffixed_NoDup]).
  - apply (bool_decide_unpack _). reflexivity.
  - intros f Hf. rewrite !elem_of_app.
    rewrite !elem_of_cons, elem_of_nil in Hf.
    destruct Hf as [->|[->|[->|[->|[->|[->|[]]]]]]];
      intros [H|[H|[H|[H|[H|H]]]]]; revert H; by apply not_suffixed.
  - intros f Hf. rewrite !elem_of_app.
    intros [H|[H|[H|[H|H]]]]; (eapply suffixed_disjoint; [| |exact Hf|exact H]; reflexivity).
  - intros f Hf. rewrite !elem_of_app.
    intros [H|[H|[H|H]]]; (eapply suffixed_disjoint; [| |exact Hf|exact H]; reflexivity).
  - intros f Hf. rewrite !elem_of_app.
    intros [H|[H|H]]; (eapply suffixed_disjoint; [| |exact Hf|exact H]; reflexivity).
  - intros f Hf. rewrite !elem_of_app.
    intros [H|H]; (eapply suffixed_disjoint; [| |exact Hf|exact H]; reflexivity).
  - intros f Hf H. (eapply suffixed_disjoint; [| |exact Hf|exact H]; reflexivity).
Qed.

(** X17: the names of the columns are pairwise distinct: the header of a
    run names no column twice, whatever the sample names are. *)
Theorem header_names_each_column_once lines (mr : Z) (ws : list str) :
  primary (macs2_merged_expand ord lines mr) = Some ws →
  ∃ fields rows, ws = out_line fields :: rows ∧ NoDup fields
    ∧ py_split [tab] (py_join [tab] fields) = fields.
Proof.
  intros (all & Eall & ->)%run_primary.
  pose proof (loop_invariant_holds ord lines all mr Eall) as (rows & -> & _).
  exists (ofields (sorted_sample_names ord all)), rows.
  split_and!; [done| |].
  - apply ofields_NoDup, sorted_sample_names_NoDup.
  - apply py_split_join; [done|]. apply ofields_tab_free.
    apply Forall_forall. intros s Hs%sorted_sample_names_elem.
    by apply (sample_tab_free lines all).
Qed.

(** ** White space around a line *)









(** ** The two counts of a row *)

Lemma remove_dups_length_le (l : list str) :
  (length (remove_dups l) ≤ length l)%nat.
Proof.
  induction l as [|x l IH]; simpl; [done|].
  destruct (decide_rel elem_of x l); simpl; lia.
Qed.

(** X19: in a row that is written, [num_peaks] is the number of sources
    of the line and [num_samples] the number of its contributing samples,
    which is at least 1 and at most [num_peaks]. *)
Theorem num_samples_between_one_and_num_peaks snl (mr total : Z) (line : str)
    (olist ts : list str) :
  line_output snl mr total line = Ok (Some (olist, ts)) →
  ∃ r, parse_row line = Ok r
    ∧ olist !! 4%nat = Some (str_int (Z.of_nat (length (names r))))
    ∧ olist !! 5%nat = Some (str_int (Z.of_nat (length (combination mr r))))
    ∧ (1 ≤ length (combination mr r) ≤ length (names r))%nat.
Proof.
  intros Eo. pose proof (line_output_combination _ _ _ _ _ Eo) as Ec.
  apply line_output_some in Eo
    as (r & fc & qv & pv & st & en & Er & -> & Hne & _).
  simpl in Ec. unfold combination_of in Ec. rewrite Er in Ec.
  destruct (decide (combination mr r = [])) as [|Hc]; [done|].
  injection Ec as ->. exists r. split_and!; [done|done|done| |].
  - destruct (combination mr r); [done|simpl; lia].
  - unfold combination. rewrite py_sorted_length.
    etrans; [apply remove_dups_length_le|].
    unfold contributing_samples. etrans; [apply length_filter|].
    by rewrite length_fmap.
Qed.

End Further.

(** * The examples *)

#[local] Existing Instance plain_num.

(** ** The interpreter of the examples prints no tab *)

Lemma plain_float_tab_free (f : @pyfloat plain_num) : tab ∉ @str_float plain_num f.
Proof.
  destruct f as [i f]. simpl. unfold plain_str_float. simpl.
  assert (Hd : ∀ d, tab ∉ list_ascii_of_string (NilEmpty.string_of_uint d)).
  { intros d Hin. apply digits_only in Hin. revert Hin.
    apply (bool_decide_unpack _). by vm_compute. }
  intros [Hi|[?|?]%elem_of_cons]%elem_of_app; [|done|by eapply Hd].
  destruct i as [d|d]; simpl in Hi; [by eapply Hd|].
  apply elem_of_cons in Hi as [?|?]; [done|by eapply Hd].
Qed.

(** ** A run with a threshold of two replicates *)

Example three_intervals_run :
  macs2_merged_expand (H:=plain_num) elements_order three_intervals 2
  = {| primary := Some [three_header; three_row_1; three_row_2];
       secondary := Some [tsv ["A_rep1&A_rep2"; "2"]];
       raised := None |}.
Proof. reflexivity. Qed.

Example three_intervals_samples :
  sorted_sample_names elements_order three_samples
  = [lit "A_rep1"; lit "A_rep2"; lit "B_rep1"].
Proof. reflexivity. Qed.

(** The three intervals have the samples A_rep1, A_rep2 and B_rep1. *)
Lemma discovery_is_sorted_union_witness :
  ∃ all_sample_names,
    collect_sample_names three_intervals = Ok all_sample_names
    ∧ StronglySorted lexicographically_less
        (sorted_sample_names elements_order all_sample_names)
    ∧ ∀ s, s ∈ sorted_sample_names elements_order all_sample_names ↔
        ∃ line name, line ∈ three_intervals ∧ source_of line name
                     ∧ derived_from name s.
Proof.
  apply (discovery_is_sorted_union elements_order three_intervals).
  apply (bool_decide_unpack _). vm_compute. exact I.
Defined.

Example first_row_passing :
  passing 2 first_row = [lit "A_rep1"; lit "A_rep2"].
Proof. reflexivity. Qed.

(** In the first interval only the group A has two replicates. *)
Lemma group_threshold_selects_witness :
  (∀ sid, sid ∈ passing 2 first_row ↔
     sid ∈ sample_id <$> names first_row
     ∧ group_passes 2 (names first_row) (group_id sid))
  ∧ ∃ v, collect_values first_row (passing 2 first_row) = Ok v
    ∧ ∀ s,
        fc_dict v !! s
          = accumulated 2 (names first_row) (str_float <$> fcs first_row) s
        ∧ qval_dict v !! s
          = accumulated 2 (names first_row) (str_float <$> qvals first_row) s
        ∧ pval_dict v !! s
          = accumulated 2 (names first_row) (str_float <$> pvals first_row) s
        ∧ start_dict v !! s
          = accumulated 2 (names first_row) (str_int <$> starts first_row) s
        ∧ end_dict v !! s
          = accumulated 2 (names first_row) (str_int <$> ends first_row) s.
Proof.
  apply (group_threshold_selects (N:=plain_num) 2 first_row);
    reflexivity.
Defined.

(** The names ["A"] and ["B"] make the group [""] pass a threshold of 2. *)
Lemma underscore_free_names_pooled_witness :
  group_id (lit "A") = []
  ∧ (∃ members, build_group_dict [lit "A"; lit "B"] !! [] = Some members
                ∧ lit "A" ∈ members)
  ∧ lit "A" ∈ pass_rep_thresh 2 (build_group_dict [lit "A"; lit "B"]).
Proof.
  assert ("_"%char ∉ lit "A") as Hfree
    by (apply (bool_decide_unpack _); vm_compute; exact I).
  assert (lit "A" ∈ sample_id <$> [lit "A"; lit "B"]) as Hin
    by (apply (bool_decide_unpack _); vm_compute; exact I).
  destruct (underscore_free_names_pooled 2 [lit "A"; lit "B"] (lit "A") Hfree)
    as (Hgid & Hgroup & Hpass).
  split; [exact Hgid|]. split; [exact (Hgroup Hin)|].
  apply (Hpass Hin). vm_compute. discriminate.
Defined.

(** The first row of the run has 24 fields, read back from its tabs. *)
Lemma every_line_has_all_columns_witness :
  ∃ fields,
    three_row_1 = out_line fields
    ∧ py_split [tab] (py_join [tab] fields) = fields
    ∧ length fields
      = (6 + 6 * length (sorted_sample_names elements_order three_samples))%nat.
Proof.
  destruct (every_line_has_all_columns (N:=plain_num) elements_order
              three_intervals 2 three_samples
              [three_header; three_row_1; three_row_2] three_row_1)
    as (fields & [Hline Hsplit] & Hlen).
  - reflexivity.
  - reflexivity.
  - apply (bool_decide_unpack _). vm_compute. exact I.
  - exists fields. split; [exact Hline|]. split; [|exact Hlen].
    apply Hsplit, plain_float_tab_free.
Defined.

(** The first row of the run counts its two [TRUE] cells. *)
Lemma num_samples_counts_true_witness :
  ∃ fields,
    written_fields (N:=plain_num) three_row_1 fields
    ∧ fields !! 5%nat
      = Some (str_int (Z.of_nat (count_true
          (take (length (sorted_sample_names elements_order three_samples))
             (drop 6 fields))))).
Proof.
  apply (num_samples_counts_true (N:=plain_num) elements_order three_intervals 2
           three_samples [three_header; three_row_1; three_row_2] 0 three_row_1);
    reflexivity.
Defined.

(** The run writes two rows and one combination, counted twice. *)
Lemma counts_sum_to_rows_witness :
  ∃ all (st : state),
    collect_sample_names three_intervals = Ok all
    ∧ st = (expand_lines (H:=plain_num) (sorted_sample_names elements_order all) 2
              (initial_state (sorted_sample_names elements_order all))
              three_intervals).1
    ∧ [three_header; three_row_1; three_row_2] = written st
    ∧ sum_counts (comb_freq_dict st) = Z.of_nat (3 - 1)
    ∧ ∀ tbl,
        secondary (macs2_merged_expand (H:=plain_num) elements_order
                     three_intervals 2) = Some tbl →
        tbl = intersect_line <$> comb_freq_items (comb_freq_dict st)
        ∧ foldr Z.add 0 (comb_freq_items (comb_freq_dict st)).*1
          = Z.of_nat (3 - 1).
Proof.
  apply (counts_sum_to_rows (N:=plain_num) elements_order three_intervals 2
           [three_header; three_row_1; three_row_2]).
  reflexivity.
Defined.

(** The run drops the second interval and numbers the third [Interval_2]. *)
Lemma dropped_rows_take_no_identifier_witness :
  ∃ all processed rest,
    collect_sample_names three_intervals = Ok all
    ∧ three_intervals = processed ++ rest
    ∧ (raised (macs2_merged_expand (H:=plain_num) elements_order
                 three_intervals 2) = None → rest = [])
    ∧ (∀ line (r : @row plain_num) st,
         parse_row line = Ok r → contributing_samples 2 r = [] →
         expand_line (sorted_sample_names elements_order all) 2 st line = Ok st)
    ∧ [three_header; three_row_1; three_row_2]
      = out_line (ofields (sorted_sample_names elements_order all))
        :: imap (λ k line, row_text (N:=plain_num)
                             (sorted_sample_names elements_order all) 2
                             (Z.of_nat k) line)
             (filter (row_contributes (N:=plain_num) 2) processed)
    ∧ ∀ k line,
        filter (row_contributes (N:=plain_num) 2) processed !! k = Some line →
        ∃ fields,
          written_fields
            (row_text (sorted_sample_names elements_order all) 2 (Z.of_nat k) line)
            fields
          ∧ fields !! 3%nat = Some (lit "Interval_" ++ str_int (Z.of_nat k + 1)).
Proof.
  apply (dropped_rows_take_no_identifier (N:=plain_num) elements_order
           three_intervals 2 [three_header; three_row_1; three_row_2]).
  reflexivity.
Defined.

(** The second interval has no sample that passes: it is dropped. *)
Example second_interval_dropped :
  (filter (row_contributes (N:=plain_num) 2) three_intervals)
  = [interval_1; interval_3].
Proof. reflexivity. Qed.

(** ** Rows whose sequences differ in length *)

(** C1 as stated fails: a row with more fold-changes than sources is
    processed as any other, no exception is raised and its line is written. *)
Lemma long_sequence_is_processed :
  ∃ r : @row plain_num,
    parse_row long_fold_changes = Ok r
    ∧ length (fcs r) ≠ length (names r)
    ∧ macs2_merged_expand (H:=plain_num) elements_order [long_fold_changes] 1
      = {| primary :=
             Some [tsv ["chr"; "start"; "end"; "interval_id"; "num_peaks";
                        "num_samples"; "A_rep1.bool"; "A_rep1.fc";
                        "A_rep1.qval"; "A_rep1.pval"; "A_rep1.start";
                        "A_rep1.end"];
                   tsv ["chr1"; "100"; "500"; "Interval_1"; "1"; "1"; "TRUE";
                        "2.1"; "3.5"; "5.0"; "100"; "500"]];
           secondary := Some [tsv ["A_rep1"; "1"]];
           raised := None |}.
Proof.
  exists (value_or empty_row (parse_row long_fold_changes)).
  split; [reflexivity|]. split; [vm_compute; discriminate|].
  reflexivity.
Qed.

(** With a threshold of 1 the row with one fold-change for two sources
    ends the run after the first interval. *)
Lemma short_sequence_aborts_witness :
  macs2_merged_expand (H:=plain_num) elements_order
    ([interval_1] ++ short_fold_changes :: [interval_3]) 1
  = {| primary :=
         Some [three_header;
               tsv ["chr1"; "100"; "500"; "Interval_1"; "3"; "3"; "TRUE";
                    "TRUE"; "TRUE"; "2.1"; "2.3"; "1.9"; "3.5"; "4.5"; "2.5";
                    "5.0"; "6.0"; "4.0"; "100"; "200"; "150"; "300"; "500";
                    "400"]];
       secondary := None;
       raised := Some IndexError |}.
Proof.
  pose (all := value_or ∅ (collect_sample_names
                 ([interval_1] ++ short_fold_changes :: [interval_3]))).
  pose (st := (expand_lines (H:=plain_num) (sorted_sample_names elements_order all) 1
                 (initial_state (sorted_sample_names elements_order all))
                 [interval_1]).1).
  destruct (short_sequence_aborts (N:=plain_num) elements_order
              [interval_1] [interval_3] short_fold_changes short_row 1 all st)
    as (Habort & _ & _).
  - reflexivity.
  - reflexivity.
  - reflexivity.
  - rewrite Habort.
    + reflexivity.
    + exists 1%nat. split.
      * exists (lit "A_rep2_peak_4"). split; [reflexivity|].
        apply (bool_decide_unpack _). vm_compute. exact I.
      * unfold complete. vm_compute. lia.
Defined.

(** With a threshold of 3 no source passes and the same row raises nothing. *)
Example short_sequence_without_passing_source :
  macs2_merged_expand (H:=plain_num) elements_order
    [interval_1; short_fold_changes; interval_3] 3
  = {| primary := Some [three_header]; secondary := Some []; raised := None |}.
Proof. reflexivity. Qed.

(** ** The name of the secondary file *)

(** [out/consensus.txt] gives [out/consensus.intersect.txt], and [out]
    gives [.intersect.txt]. *)
Lemma intersect_path_is_another_file_witness :
  intersect_path (lit "out/consensus" ++ lit ".txt")
  = lit "out/consensus" ++ lit ".intersect.txt"
  ∧ intersect_path (lit "out") = lit ".intersect.txt"
  ∧ ∀ outfile, intersect_path outfile ≠ outfile.
Proof.
  apply (intersect_path_is_another_file (lit "out/consensus") (lit ".txt")
           (lit "out")).
  - reflexivity.
  - simpl. lia.
Defined.

(** ** Lines that end a run *)

Lemma spaces_only (l : str) :
  forallb is_space l = true → ∀ c, c ∈ l → is_space c = true.
Proof.
  intros Hall c Hc. apply list_elem_of_In in Hc.
  by apply (proj1 (forallb_forall is_space l) Hall).
Qed.

Lemma aligned_readable (mr : Z) (line : str) (r : @row plain_num) :
  parse_row line = Ok r → aligned r → readable mr line.
Proof.
  intros Er Hal. exists r. split; [done|]. by apply aligned_complete.
Qed.

(** A line of white space after the three intervals: nothing is written. *)
Lemma blank_line_aborts_the_run_witness :
  macs2_merged_expand (H:=plain_num) elements_order
    (three_intervals ++ [blank_line]) 1
  = {| primary := None; secondary := None; raised := Some IndexError |}.
Proof.
  apply (blank_line_aborts_the_run (N:=plain_num) elements_order
           (three_intervals ++ [blank_line]) blank_line 1).
  - apply elem_of_app. right. left.
  - apply spaces_only. reflexivity.
Defined.

(** A start that is no integer, after the first interval: the header and
    the row of the first interval stay, and no table is written. *)
Lemma first_bad_line_ends_the_run_witness :
  ∃ e, (e = IndexError ∨ e = ValueError)
    ∧ macs2_merged_expand (H:=plain_num) elements_order
        ([interval_1] ++ bad_coordinate :: [interval_3]) 2
      = {| primary := Some [three_header; three_row_1];
           secondary := None;
           raised := Some e |}.
Proof.
  destruct (first_bad_line_ends_the_run (N:=plain_num) elements_order
              [interval_1] bad_coordinate [interval_3] 2
              (value_or ∅ (collect_sample_names
                 ([interval_1] ++ bad_coordinate :: [interval_3]))))
    as (e & He & Hrun).
  - reflexivity.
  - constructor; [|constructor].
    apply (aligned_readable 2 interval_1 first_row); [reflexivity|].
    repeat split; reflexivity.
  - intros (r & Er & _).
    assert (parse_row (H:=plain_num) bad_coordinate = Raise ValueError) as E
      by reflexivity.
    rewrite E in Er. discriminate Er.
  - exists e. split; [exact He|]. rewrite Hrun. reflexivity.
Defined.

(** ** The row of the first interval *)

Lemma row_in_closed_form_witness :
  line_output (H:=plain_num) [lit "A_rep1"; lit "A_rep2"; lit "B_rep1"] 2 0
    interval_1
  = Ok (Some (first_row_fields, [lit "A_rep1"; lit "A_rep2"])).
Proof.
  rewrite (row_in_closed_form (N:=plain_num)
             [lit "A_rep1"; lit "A_rep2"; lit "B_rep1"] 2 0 interval_1 first_row).
  - reflexivity.
  - reflexivity.
  - repeat split; reflexivity.
Defined.

Lemma num_samples_between_one_and_num_peaks_witness :
  ∃ r : @row plain_num,
    parse_row interval_1 = Ok r
    ∧ first_row_fields !! 4%nat = Some (str_int (Z.of_nat (length (names r))))
    ∧ first_row_fields !! 5%nat
      = Some (str_int (Z.of_nat (length (combination 2 r))))
    ∧ (1 ≤ length (combination 2 r) ≤ length (names r))%nat.
Proof.
  apply (num_samples_between_one_and_num_peaks (N:=plain_num)
           [lit "A_rep1"; lit "A_rep2"; lit "B_rep1"] 2 0 interval_1
           first_row_fields [lit "A_rep1"; lit "A_rep2"]).
  reflexivity.
Defined.

(** ** Thresholds *)


(** With the default threshold the three intervals give three rows. *)
Lemma default_threshold_keeps_every_row_witness :
  length (default [] (primary (macs2_merged_expand (H:=plain_num) elements_order
                                 three_intervals 1)))
  = S (length three_intervals)
  ∧ ∀ line (r : @row plain_num),
      line ∈ three_intervals → parse_row line = Ok r →
      ∀ s, s ∈ combination 1 r ↔ s ∈ sample_id <$> names r.
Proof.
  apply (default_threshold_keeps_every_row (N:=plain_num) elements_order
           three_intervals 1).
  - lia.
  - reflexivity.
  - reflexivity.
Defined.

(** In the first interval A_rep1 and A_rep2 pass together. *)
Lemma replicates_pass_together_witness :
  lit "A_rep1" ∈ pass_rep_thresh 2 (build_group_dict (names first_row))
  ↔ lit "A_rep2" ∈ pass_rep_thresh 2 (build_group_dict (names first_row)).
Proof.
  apply (replicates_pass_together 2 (names first_row)).
  - apply (bool_decide_unpack _). vm_compute. exact I.
  - apply (bool_decide_unpack _). vm_compute. exact I.
  - reflexivity.
Defined.

(** ** The table of the three intervals *)

Lemma table_counts_lines_of_each_combination_witness :
  ∃ items,
    secondary (macs2_merged_expand (H:=plain_num) elements_order three_intervals 2)
    = Some (intersect_line <$> items)
    ∧ NoDup items.*2
    ∧ ∀ n key, (n, key) ∈ items
               ↔ n = Z.of_nat (rows_with (N:=plain_num) 2 key three_intervals)
                 ∧ 0 < n.
Proof.
  apply (table_counts_lines_of_each_combination (N:=plain_num) elements_order
           three_intervals 2).
  reflexivity.
Defined.

Lemma table_line_reads_back_witness :
  ∃ n key,
    tsv ["A_rep1&A_rep2"; "2"]
    = py_join (lit "&") key ++ [tab] ++ str_int n ++ [newline]
    ∧ key ≠ [] ∧ (∀ s, s ∈ key → s ∈ three_samples)
    ∧ py_split [tab] (py_join (lit "&") key ++ [tab] ++ str_int n)
      = [py_join (lit "&") key; str_int n]
    ∧ ((∀ s, s ∈ three_samples → "&"%char ∉ s) →
       py_split (lit "&") (py_join (lit "&") key) = key).
Proof.
  apply (table_line_reads_back (N:=plain_num) elements_order three_intervals 2
           three_samples [tsv ["A_rep1&A_rep2"; "2"]]).
  - reflexivity.
  - reflexivity.
  - left.
Defined.

(** The second interval alone, with a threshold of 2: the header and no
    row. *)
Lemma no_contributing_line_writes_header_only_witness :
  (∃ all, collect_sample_names [interval_2] = Ok all
     ∧ macs2_merged_expand (H:=plain_num) elements_order [interval_2] 2
       = {| primary := Some [out_line (ofields (sorted_sample_names elements_order all))];
            secondary := Some [];
            raised := None |})
  ∧ macs2_merged_expand (H:=plain_num) elements_order [] 2
    = {| primary :=
           Some [lit "chr" ++ [tab] ++ lit "start" ++ [tab] ++ lit "end"
                 ++ [tab] ++ lit "interval_id" ++ [tab] ++ lit "num_peaks"
                 ++ [tab] ++ lit "num_samples" ++ [newline]];
         secondary := Some [];
         raised := None |}.
Proof.
  apply (no_contributing_line_writes_header_only (N:=plain_num) elements_order
           [interval_2] 2).
  constructor; [|constructor]. exists second_row. split; reflexivity.
Defined.

(** ** The header of the three intervals *)

Lemma header_names_each_column_once_witness :
  ∃ fields rows,
    [three_header; three_row_1; three_row_2] = out_line fields :: rows
    ∧ NoDup fields
    ∧ py_split [tab] (py_join [tab] fields) = fields.
Proof.
  apply (header_names_each_column_once (N:=plain_num) elements_order
           three_intervals 2).
  reflexivity.
Defined.

(** ** White space around the three intervals *)

